(** * Gradient M chatbot backend: the conversation-turn pipeline

    A shallow embedding of [chat_bot_app.py]: the reply sanitizer
    [clean_response], the process-wide [conversation_history], the turn
    executor [get_chatbot_response] and the Flask routes [chat] and [reset],
    followed by the properties of the pipeline.

    Python [str] values are sequences of Unicode code points; they are
    modelled as lists of code points.  The calls into [re] are modelled
    by a small backtracking matcher for the fragment of regular expressions
    the source uses (single characters, character classes and the greedy
    [+] of a class) together with the left-to-right, non-overlapping
    substitution of [re.sub]. *)

From Stdlib Require Import NArith QArith Lia.
From stdpp Require Import base option list strings gmap.

Open Scope N_scope.
Open Scope list_scope.
Open Scope bool_scope.

(** ** Python text *)

Module Text.

(** A code point of a Python [str]. *)
Definition char := N.
Definition str := list char.

(** An ASCII literal of the source as a [str]. *)
Definition lit (s : string) : str :=
  map Ascii.N_of_ascii (String.list_ascii_of_string s).

(** [str.isspace] for one code point, which is also the class [\s] of a
    [str] pattern and the set [str.strip()] removes (CPython's
    [Py_UNICODE_ISSPACE]). *)
Definition isspace (c : char) : bool :=
  ((0x09 <=? c) && (c <=? 0x0D)) || ((0x1C <=? c) && (c <=? 0x20))
  || (c =? 0x85) || (c =? 0xA0) || (c =? 0x1680)
  || ((0x2000 <=? c) && (c <=? 0x200A))
  || (c =? 0x2028) || (c =? 0x2029) || (c =? 0x202F) || (c =? 0x205F)
  || (c =? 0x3000).

(** The code points of Unicode category Nd, as (first, count) ranges
    (Unicode 14, the table of CPython 3.11). *)
Definition decimal_ranges : list (N * N) :=
  [ (0x30, 10); (0x660, 10); (0x6F0, 10); (0x7C0, 10); (0x966, 10);
    (0x9E6, 10); (0xA66, 10); (0xAE6, 10); (0xB66, 10); (0xBE6, 10);
    (0xC66, 10); (0xCE6, 10); (0xD66, 10); (0xDE6, 10); (0xE50, 10);
    (0xED0, 10); (0xF20, 10); (0x1040, 10); (0x1090, 10); (0x17E0, 10);
    (0x1810, 10); (0x1946, 10); (0x19D0, 10); (0x1A80, 10); (0x1A90, 10);
    (0x1B50, 10); (0x1BB0, 10); (0x1C40, 10); (0x1C50, 10); (0xA620, 10);
    (0xA8D0, 10); (0xA900, 10); (0xA9D0, 10); (0xA9F0, 10); (0xAA50, 10);
    (0xABF0, 10); (0xFF10, 10); (0x104A0, 10); (0x10D30, 10);
    (0x11066, 10); (0x110F0, 10); (0x11136, 10); (0x111D0, 10);
    (0x112F0, 10); (0x11450, 10); (0x114D0, 10); (0x11650, 10);
    (0x116C0, 10); (0x11730, 10); (0x118E0, 10); (0x11950, 10);
    (0x11C50, 10); (0x11D50, 10); (0x11DA0, 10); (0x16A60, 10);
    (0x16AC0, 10); (0x16B50, 10); (0x1D7CE, 50); (0x1E140, 10);
    (0x1E2F0, 10); (0x1E950, 10); (0x1FBF0, 10) ].

(** The class [\d] of a [str] pattern ([Py_UNICODE_ISDECIMAL]). *)
Definition isdecimal (c : char) : bool :=
  existsb (fun r => (fst r <=? c) && (c <? fst r + snd r)) decimal_ranges.

(** Removal of the longest prefix of characters in a class. *)
Fixpoint drop_while (p : char -> bool) (s : str) : str :=
  match s with
  | c :: s' => if p c then drop_while p s' else s
  | [] => []
  end.

(** The length of the longest prefix of characters in a class. *)
Fixpoint span (p : char -> bool) (s : str) : nat :=
  match s with
  | c :: s' => if p c then S (span p s') else 0%nat
  | [] => 0%nat
  end.

(** The first character is not in the class (or there is none). *)
Definition starts_outside (p : char -> bool) (s : str) : Prop :=
  match s with
  | c :: _ => p c = false
  | [] => True
  end.

(** [str.lstrip()], [str.rstrip()] and [str.strip()] without argument. *)
Definition lstrip (s : str) : str := drop_while isspace s.
Definition rstrip (s : str) : str := reverse (drop_while isspace (reverse s)).
Definition strip (s : str) : str := rstrip (lstrip s).

End Text.

(** ** The fragment of [re] used by the sanitizer *)

Module Re.
Import Text.

(** One item of a pattern: a single character of a class (a literal such
    as [\[] or [d] is the class of that one character), or the greedy
    repetition [+] of a class. *)
Inductive atom : Type :=
| One (p : char -> bool)
| Many1 (p : char -> bool).

Definition pattern := list atom.

(** Zero or more characters of [p], longest first, then the rest of the
    pattern [k]; on failure of [k] one character is given back at a time.
    The result is the number of characters matched. *)
Fixpoint greedy (p : char -> bool) (k : str -> option nat) (s : str)
  : option nat :=
  match s with
  | c :: s' =>
      if p c then
        match greedy p k s' with
        | Some n => Some (S n)
        | None => k s
        end
      else k s
  | [] => k s
  end.

(** The match of [pat] anchored at the start of [s]: the length of the
    match the backtracking engine finds first, if there is one. *)
Fixpoint match_here (pat : pattern) (s : str) : option nat :=
  match pat with
  | [] => Some 0%nat
  | One p :: pat' =>
      match s with
      | c :: s' => if p c then S <$> match_here pat' s' else None
      | [] => None
      end
  | Many1 p :: pat' =>
      match s with
      | c :: s' => if p c then S <$> greedy p (match_here pat') s' else None
      | [] => None
      end
  end.

(** [re.sub] from a position inside [s]: [skip] characters still belong
    to the match found last.  Matches are searched from left to right
    and do not overlap; a character where no match starts is copied. *)
Fixpoint sub_from (pat : pattern) (repl : str) (skip : nat) (s : str) : str :=
  match s with
  | [] =>
      match skip, match_here pat [] with
      | 0%nat, Some _ => repl
      | _, _ => []
      end
  | c :: s' =>
      match skip with
      | S k => sub_from pat repl k s'
      | 0%nat =>
          match match_here pat s with
          | Some (S n) => repl ++ sub_from pat repl n s'
          | Some 0%nat => repl ++ c :: sub_from pat repl 0 s'
          | None => c :: sub_from pat repl 0 s'
          end
      end
  end.

(** [re.sub(pat, repl, s)]. *)
Definition sub (pat : pattern) (repl : str) (s : str) : str :=
  sub_from pat repl 0 s.

(** [re.search(pat, s) is not None]. *)
Fixpoint search (pat : pattern) (s : str) : bool :=
  match match_here pat s with
  | Some _ => true
  | None => match s with
            | _ :: s' => search pat s'
            | [] => false
            end
  end.

(** The class of one literal character. *)
Definition exactly (c : char) : char -> bool := N.eqb c.

(** A literal string as a pattern. *)
Definition literal (s : string) : pattern := map (fun c => One (exactly c)) (lit s).

End Re.

(** ** Helper utilities of the application *)

Import Text.

Arguments isspace : simpl never.
Arguments isdecimal : simpl never.
Arguments Re.exactly : simpl never.
Arguments lit : simpl never.

(** The pattern [r"\[doc\d+\]"]. *)
Definition citation_pattern : Re.pattern :=
  Re.literal "[doc" ++ [Re.Many1 isdecimal] ++ Re.literal "]".

(** The same pattern, atom by atom. *)
Definition citation_atoms : Re.pattern :=
  [ Re.One (Re.exactly 0x5B); Re.One (Re.exactly 0x64);
    Re.One (Re.exactly 0x6F); Re.One (Re.exactly 0x63);
    Re.Many1 isdecimal; Re.One (Re.exactly 0x5D) ].

(** The pattern [r"\s+\."]. *)
Definition space_period_pattern : Re.pattern :=
  [Re.Many1 isspace] ++ Re.literal ".".

(** The pattern [r"\s+"]. *)
Definition spaces_pattern : Re.pattern := [Re.Many1 isspace].

(** [clean_response]: remove citation tokens like [[doc1]] and tidy
    whitespace and punctuation. *)
Definition clean_response (text : str) : str :=
  let text := Re.sub citation_pattern (lit "") text in
  let text := Re.sub space_period_pattern (lit ".") text in
  strip (Re.sub spaces_pattern (lit " ") text).

(** The three substitutions of [clean_response], by name. *)
Definition remove_citations (text : str) : str :=
  Re.sub citation_pattern (lit "") text.
Definition tidy_periods (text : str) : str :=
  Re.sub space_period_pattern (lit ".") text.
Definition collapse_spaces (text : str) : str :=
  Re.sub spaces_pattern (lit " ") text.

(** ** What the sanitizer is meant to establish *)

(** A citation marker: the prefix [[doc], one or more digits (the
    characters [\d] matches), and the closing bracket. *)
Definition citation (m : str) : Prop :=
  exists ds, ds <> [] /\ Forall (fun c => isdecimal c = true) ds
             /\ m = lit "[doc" ++ ds ++ lit "]".

(** The text contains an occurrence of a citation marker. *)
Definition has_citation (s : str) : Prop :=
  exists pre m post, citation m /\ s = pre ++ m ++ post.

(** A character that is neither whitespace nor a period; the later stages
    of the sanitizer copy such characters. *)
Definition solid (c : char) : Prop := isspace c = false /\ c <> 0x2E.

(** Every whitespace character is a single space that no whitespace
    follows. *)
Fixpoint single_spaced (t : str) : Prop :=
  match t with
  | c :: t' =>
      (isspace c = true -> c = 0x20 /\ starts_outside isspace t')
      /\ single_spaced t'
  | [] => True
  end.

(** No whitespace character stands immediately before a period. *)
Fixpoint period_tidy (t : str) : Prop :=
  match t with
  | c :: t' =>
      (isspace c = true -> starts_outside (Re.exactly 0x2E) t')
      /\ period_tidy t'
  | [] => True
  end.

(** ** Conversation state and the world around it *)

(** A message of the conversation: a dict with the keys [role], [content]
    and [timestamp]. *)
Record Turn : Type := mkTurn {
  role : str;
  content : str;
  timestamp : str;
}.

(** A dict of [messages_for_api]: a turn without its timestamp. *)
Record Message : Type := mkMessage {
  msg_role : str;
  msg_content : str;
}.

(** The [authentication] dict of the data source. *)
Record Authentication : Type := mkAuthentication {
  auth_type : str;
  key : str;
}.

(** The [parameters] dict of the data source. *)
Record SearchParameters : Type := mkSearchParameters {
  endpoint : option str;
  index_name : option str;
  semantic_configuration : str;
  query_type : str;
  fields_mapping : gmap str str;
  in_scope : bool;
  filter : option str;
  strictness : Z;
  top_n_documents : Z;
  authentication : Authentication;
}.

(** An element of [extra_body["data_sources"]]. *)
Record DataSource : Type := mkDataSource {
  source_type : str;
  parameters : SearchParameters;
}.

(** The keyword arguments of [client.chat.completions.create].  The
    decoding parameters written as decimal literals in the source are kept
    as the rationals those literals denote. *)
Record CompletionRequest : Type := mkCompletionRequest {
  model : option str;
  messages : list Message;
  max_tokens : Z;
  temperature : Q;
  top_p : Q;
  frequency_penalty : Q;
  presence_penalty : Q;
  data_sources : list DataSource;
}.

(** What the handlers can raise: an error of the completion call itself,
    [response.choices[0]] on an empty list, and [re.sub] on a content that
    is [None]. *)
Inductive Exn : Type :=
| ServiceError (detail : str)
| IndexError
| TypeError.

Inductive Outcome (A : Type) : Type :=
| Ok (a : A)
| Raise (e : Exn).
Arguments Ok {A} a.
Arguments Raise {A} e.

(** The response of the completion service: [message.content] of each of
    its [choices]. *)
Record Response : Type := mkResponse {
  choices : list (option str);
}.

(** The environment variables read at start-up. *)
Record Config : Type := mkConfig {
  AZURE_OPENAI_DEPLOYMENT : option str;
  AZURE_SEARCH_ENDPOINT : option str;
  AZURE_SEARCH_KEY : str;
  AZURE_SEARCH_INDEX : option str;
}.

(** Everything outside the process: the configuration, the wall clock as
    [datetime.now().strftime("%I:%M %p")] shows it at its n-th reading, and
    the answer of the completion service to the n-th request. *)
Record Env : Type := mkEnv {
  config : Config;
  clock : nat -> str;
  service : nat -> CompletionRequest -> Outcome Response;
}.

(** The state of the process: the module-level [conversation_history], the
    number of clock readings so far, and the requests sent so far. *)
Record World : Type := mkWorld {
  conversation_history : list Turn;
  clock_reads : nat;
  sent : list CompletionRequest;
}.

(** Computations over the process state that may raise.  The state reached
    when an exception is raised is kept: a list mutated before the
    exception stays mutated. *)
Definition M (A : Type) : Type := World -> Outcome A * World.

#[global] Instance M_ret : MRet M := fun A a w => (Ok a, w).
#[global] Instance M_bind : MBind M := fun A B f m w =>
  match m w with
  | (Ok a, w') => f a w'
  | (Raise e, w') => (Raise e, w')
  end.

Definition raise {A} (e : Exn) : M A := fun w => (Raise e, w).

Definition get_history : M (list Turn) :=
  fun w => (Ok (conversation_history w), w).

(** [conversation_history = h]. *)
Definition set_history (h : list Turn) : M unit :=
  fun w => (Ok tt, mkWorld h (clock_reads w) (sent w)).

(** [conversation_history.append(t)]. *)
Definition append (t : Turn) : M unit :=
  fun w => (Ok tt, mkWorld (conversation_history w ++ [t]) (clock_reads w) (sent w)).

(** [current_time]: current local time formatted nicely. *)
Definition current_time (env : Env) : M str :=
  fun w => (Ok (clock env (clock_reads w)),
            mkWorld (conversation_history w) (S (clock_reads w)) (sent w)).

(** [client.chat.completions.create(...)]: the request is sent, and the
    service answers or the call raises. *)
Definition create (env : Env) (req : CompletionRequest) : M Response :=
  fun w => (service env (length (sent w)) req,
            mkWorld (conversation_history w) (clock_reads w) (sent w ++ [req])).

Definition greeting : str := lit "Hello! How can I assist you today?".

(** The module-level initialisation of [conversation_history]. *)
Definition init (env : Env) : World :=
  mkWorld [mkTurn (lit "assistant") greeting (clock env 0)] 1 [].

(** ** Chatbot logic *)

(** The list comprehension that strips the timestamps for the model call. *)
Definition messages_for_api (h : list Turn) : list Message :=
  map (fun m => mkMessage (role m) (content m)) h.

(** The keyword arguments of the completion call for a message list. *)
Definition completion_request (env : Env) (msgs : list Message)
  : CompletionRequest :=
  {| model := AZURE_OPENAI_DEPLOYMENT (config env);
     messages := msgs;
     max_tokens := 800;
     temperature := 0.7;
     top_p := 0.95;
     frequency_penalty := 0.0;
     presence_penalty := 0.0;
     data_sources :=
       [ {| source_type := lit "azure_search";
            parameters :=
              {| endpoint := AZURE_SEARCH_ENDPOINT (config env);
                 index_name := AZURE_SEARCH_INDEX (config env);
                 semantic_configuration := lit "default";
                 query_type := lit "simple";
                 fields_mapping := ∅;
                 in_scope := true;
                 filter := None;
                 strictness := 3;
                 top_n_documents := 5;
                 authentication :=
                   {| auth_type := lit "api_key";
                      key := AZURE_SEARCH_KEY (config env) |} |} |} ] |}.

(** [response.choices[0].message.content], then [clean_response] on it. *)
Definition first_content (response : Response) : M str :=
  match choices response with
  | [] => raise IndexError
  | None :: _ => raise TypeError
  | Some text :: _ => mret (clean_response text)
  end.

(** [get_chatbot_response]: append user message, query Azure OpenAI, store
    and return assistant reply. *)
Definition get_chatbot_response (env : Env) (user_message : str) : M str :=
  now ← current_time env;
  append (mkTurn (lit "user") user_message now);;
  h ← get_history;
  response ← create env (completion_request env (messages_for_api h));
  assistant_reply ← first_content response;
  now ← current_time env;
  append (mkTurn (lit "assistant") assistant_reply now);;
  mret assistant_reply.

(** ** Flask routes *)

(** The part of [flask.request] the handlers read. *)
Record Request : Type := mkRequest {
  method : str;
  form : gmap str str;
}.

(** What a handler returns: a redirect to an endpoint, or the chat template
    rendered over a conversation. *)
Inductive Reply : Type :=
| Redirect (target : str)
| Rendered (conversation : list Turn).

(** [request.form.get(name, default)]. *)
Definition form_get (req : Request) (name : str) (dflt : str) : str :=
  default dflt (form req !! name).

(** The truth value of a [str]: non-empty. *)
Definition truthy (s : str) : bool :=
  match s with [] => false | _ :: _ => true end.

(** [chat]: the route [/chat], for GET and POST. *)
Definition chat (env : Env) (req : Request) : M Reply :=
  if decide (method req = lit "POST") then
    let user_q := strip (form_get req (lit "question") (lit "")) in
    (if truthy user_q then get_chatbot_response env user_q ≫= (fun _ => mret tt)
     else mret tt);;
    mret (Redirect (lit "chat"))
  else
    h ← get_history;
    mret (Rendered h).

(** [reset]: clear conversation history and redirect back to /chat. *)
Definition reset (env : Env) : M Reply :=
  now ← current_time env;
  set_history [mkTurn (lit "assistant") greeting now];;
  mret (Redirect (lit "chat")).

(** The operations a client can complete: a request to [/chat] or to
    [/reset] that is answered. *)
Inductive step (env : Env) : World -> World -> Prop :=
| step_chat req reply w w' :
    chat env req w = (Ok reply, w') -> step env w w'
| step_reset reply w w' :
    reset env w = (Ok reply, w') -> step env w w'.

(** The states the process can be in after start-up. *)
Definition reachable (env : Env) (w : World) : Prop := rtc (step env) (init env) w.

(** The turn a submission appends first. *)
Definition user_turn (env : Env) (user_message : str) (w : World) : Turn :=
  mkTurn (lit "user") user_message (clock env (clock_reads w)).

(** The answer of the completion service to the request a submission
    sends from a state. *)
Definition reply_to (env : Env) (user_message : str) (w : World)
  : Outcome Response :=
  service env (length (sent w))
    (completion_request env
       (messages_for_api (conversation_history w ++ [user_turn env user_message w]))).

(** A sequence of completed exchanges: a user turn, then the assistant
    turn that answers it. *)
Inductive exchanges : list Turn -> Prop :=
| exchanges_nil : exchanges []
| exchanges_cons u a h :
    role u = lit "user" -> role a = lit "assistant" -> exchanges h ->
    exchanges (u :: a :: h).

(** The seeded greeting, followed by completed exchanges. *)
Definition well_formed (h : list Turn) : Prop :=
  exists ts rest, h = mkTurn (lit "assistant") greeting ts :: rest /\ exchanges rest.

(** A stub of the outside world: the clock shows 10:05 AM, and the service
    answers every request with one candidate. *)
Definition stub_config : Config :=
  mkConfig (Some (lit "gpt")) (Some (lit "https://search")) (lit "secret")
    (Some (lit "docs")).
Definition stub_env (answer : Outcome Response) : Env :=
  mkEnv stub_config (fun _ => lit "10:05 AM") (fun _ _ => answer).
Definition consulting : Outcome Response :=
  Ok (mkResponse [Some (lit "We offer consulting. [doc1]")]).

Definition post (question : str) : Request :=
  mkRequest (lit "POST") {[ lit "question" := question ]}.

(** ** Further notions for the properties below *)

(** The characters of a text other than whitespace, in order. *)
Definition visible (s : str) : str :=
  @base.filter char (list char) _ (fun c => isspace c = false) _ s.

(** Any request to [/chat] or [/reset], answered or failed: the process
    keeps the state the handler left. *)
Inductive request_step (env : Env) : World -> World -> Prop :=
| request_chat req w : request_step env w (snd (chat env req w))
| request_reset w : request_step env w (snd (reset env w)).

(** The states the process can be in after start-up, failed requests
    included. *)
Definition served (env : Env) (w : World) : Prop :=
  rtc (request_step env) (init env) w.

(** A series of requests to [/chat], each handled in the state the one
    before left, whether it was answered or failed. *)
Definition serve_chats (env : Env) (reqs : list Request) (w : World) : World :=
  foldl (fun w req => snd (chat env req w)) w reqs.

(** The question of a POST as the handler reads it. *)
Definition question (req : Request) : str :=
  form_get req (lit "question") (lit "").

(** A sequence of submissions, answered or not: a user turn alone, or a
    user turn with the assistant turn that answers it. *)
Inductive attempts : list Turn -> Prop :=
| attempts_nil : attempts []
| attempts_failed u h :
    role u = lit "user" -> attempts h -> attempts (u :: h)
| attempts_answered u a h :
    role u = lit "user" -> role a = lit "assistant" -> attempts h ->
    attempts (u :: a :: h).

(** What the handlers store in a turn: a user turn holds a stripped,
    non-empty question, an assistant turn holds a sanitized text. *)
Definition stored (t : Turn) : Prop :=
  (role t = lit "user" /\ content t <> [] /\ strip (content t) = content t)
  \/ (role t = lit "assistant" /\ exists r, content t = clean_response r).

(** ** Start-up *)

(** The keyword arguments of [AzureOpenAI(...)]. *)
Record ClientArguments : Type := mkClientArguments {
  azure_endpoint : option str;
  api_key : str;
  api_version : str;
}.

(** What the module level has read from the environment once its two
    checks have passed: the configuration of the requests, the arguments
    the client is created with, and the secret key of the Flask app. *)
Record Application : Type := mkApplication {
  app_config : Config;
  client_arguments : ClientArguments;
  secret_key : str;
}.

Inductive Startup : Type :=
| Started (app : Application)
| EnvironmentError (message : str).

(** [os.getenv(name)] and [os.getenv(name, default)] over the process
    environment, as [load_dotenv] left it. *)
Definition getenv (environ : gmap str str) (name : str) : option str :=
  environ !! name.
Definition getenv_or (environ : gmap str str) (name : str) (dflt : str) : str :=
  default dflt (environ !! name).

(** The module level up to the creation of the client: the environment is
    read, and a missing or empty key raises [EnvironmentError].  What the
    constructors of Flask and of the client do afterwards is outside. *)
Definition startup (environ : gmap str str) : Startup :=
  let AZURE_OPENAI_ENDPOINT := getenv environ (lit "ENDPOINT_URL") in
  let AZURE_OPENAI_DEPLOYMENT := getenv environ (lit "DEPLOYMENT_NAME") in
  let AZURE_OPENAI_API_KEY := getenv environ (lit "AZURE_OPENAI_API_KEY") in
  let AZURE_SEARCH_ENDPOINT := getenv environ (lit "SEARCH_ENDPOINT") in
  let AZURE_SEARCH_KEY := getenv environ (lit "SEARCH_KEY") in
  let AZURE_SEARCH_INDEX := getenv environ (lit "SEARCH_INDEX_NAME") in
  match AZURE_OPENAI_API_KEY with
  | Some ((_ :: _) as openai_key) =>
      match AZURE_SEARCH_KEY with
      | Some ((_ :: _) as search_key) =>
          Started
            {| app_config :=
                 mkConfig AZURE_OPENAI_DEPLOYMENT AZURE_SEARCH_ENDPOINT
                   search_key AZURE_SEARCH_INDEX;
               client_arguments :=
                 {| azure_endpoint := AZURE_OPENAI_ENDPOINT;
                    api_key := openai_key;
                    api_version := lit "2025-01-01-preview" |};
               secret_key :=
                 getenv_or environ (lit "FLASK_SECRET") (lit "change-this-secret") |}
      | _ => EnvironmentError (lit "SEARCH_KEY is required but not set.")
      end
  | _ => EnvironmentError (lit "AZURE_OPENAI_API_KEY is required but not set.")
  end.

(** * Properties *)

Example isdecimal_ascii : map isdecimal (lit "09/:") = [true; true; false; false].
Proof. vm_compute. reflexivity. Qed.

Example clean_response_consulting :
  clean_response (lit "We offer consulting. [doc1]") = lit "We offer consulting.".
Proof. vm_compute. reflexivity. Qed.

Example clean_response_mixed :
  clean_response (lit "  A [doc12][doc3] b   .  c [doc] .") = lit "A b. c [doc].".
Proof. vm_compute. reflexivity. Qed.

Example clean_response_nested :
  clean_response (lit "[doc[doc1]1]") = lit "[doc1]".
Proof. vm_compute. reflexivity. Qed.

Example chat_consulting :
  conversation_history
    (snd (chat (stub_env consulting) (post (lit " What services do you offer? "))
            (init (stub_env consulting))))
  = [ mkTurn (lit "assistant") greeting (lit "10:05 AM");
      mkTurn (lit "user") (lit "What services do you offer?") (lit "10:05 AM");
      mkTurn (lit "assistant") (lit "We offer consulting.") (lit "10:05 AM") ].
Proof. vm_compute. reflexivity. Qed.

(** ** The matcher and the substitution *)

Section ReFacts.
Context (p : char -> bool).

Lemma drop_span (s : str) : drop (span p s) s = drop_while p s.
Proof. induction s as [|c s IH]; simpl; [done|]. by destruct (p c). Qed.

Lemma span_le (s : str) : (span p s <= length s)%nat.
Proof. induction s as [|c s IH]; simpl; [lia|]. destruct (p c); simpl; lia. Qed.

Lemma drop_while_length (s : str) :
  (length (drop_while p s) <= length s)%nat.
Proof. rewrite <- drop_span, length_drop. lia. Qed.

Lemma drop_while_starts (s : str) : starts_outside p (drop_while p s).
Proof.
  induction s as [|c s IH]; simpl; [done|].
  destruct (p c) eqn:E; [done|]. simpl. done.
Qed.

Lemma drop_while_id (s : str) : starts_outside p s -> drop_while p s = s.
Proof. destruct s as [|c s]; simpl; [done|]. by intros ->. Qed.

Lemma drop_while_suffix (s : str) : drop_while p s `suffix_of` s.
Proof. rewrite <- drop_span. apply suffix_drop. Qed.

(** When the rest of the pattern matches after the longest run, that is
    the match the greedy repetition finds. *)
Lemma greedy_longest (k : str -> option nat) (s : str) (m : nat) :
  k (drop_while p s) = Some m -> Re.greedy p k s = Some (span p s + m)%nat.
Proof.
  induction s as [|c s IH]; simpl; [done|].
  destruct (p c); [|done]. intros H. by rewrite (IH H).
Qed.

(** When the rest of the pattern cannot start with a character of the
    class, giving characters back never helps. *)
Lemma greedy_no_retry (k : str -> option nat) (s : str) :
  (forall c t, p c = true -> k (c :: t) = None) ->
  k (drop_while p s) = None -> Re.greedy p k s = None.
Proof.
  intros Hk. induction s as [|c s IH]; simpl; [done|].
  destruct (p c) eqn:E; [|done]. intros H. rewrite (IH H). by apply Hk.
Qed.

Lemma greedy_bound (k : str -> option nat) (s : str) (n : nat) :
  (forall t m, k t = Some m -> (m <= length t)%nat) ->
  Re.greedy p k s = Some n -> (n <= length s)%nat.
Proof.
  intros Hk. revert n. induction s as [|c s IH]; simpl; intros n.
  - intros H. by apply Hk in H.
  - destruct (p c).
    + destruct (Re.greedy p k s) as [n'|] eqn:E.
      * intros [= <-]. specialize (IH _ eq_refl). lia.
      * intros H. by apply Hk in H.
    + intros H. by apply Hk in H.
Qed.

End ReFacts.

Lemma match_here_bound (pat : Re.pattern) (s : str) (n : nat) :
  Re.match_here pat s = Some n -> (n <= length s)%nat.
Proof.
  revert s n. induction pat as [|[p|p] pat IH]; intros s n; simpl.
  - intros [= <-]. lia.
  - destruct s as [|c s]; [done|]. destruct (p c); [|done].
    destruct (Re.match_here pat s) as [m|] eqn:E; simpl; [|done].
    intros [= <-]. apply IH in E. simpl. lia.
  - destruct s as [|c s]; [done|]. destruct (p c); [|done].
    destruct (Re.greedy p (Re.match_here pat) s) as [m|] eqn:E; simpl; [|done].
    intros [= <-]. apply greedy_bound in E; [simpl; lia|]. intros t k. apply IH.
Qed.

Lemma sub_from_skip (pat : Re.pattern) (repl : str) (k : nat) (s : str) :
  (k <= length s)%nat ->
  Re.sub_from pat repl k s = Re.sub pat repl (drop k s).
Proof.
  revert k. induction s as [|c s IH]; intros [|k]; simpl; try done; try lia.
  intros H. apply IH. lia.
Qed.

Lemma match_here_one (p : char -> bool) (pat : Re.pattern) (c : char) (s : str) :
  Re.match_here (Re.One p :: pat) (c :: s)
  = if p c then S <$> Re.match_here pat s else None.
Proof. done. Qed.

Lemma match_here_many1 (p : char -> bool) (pat : Re.pattern) (c : char) (s : str) :
  Re.match_here (Re.Many1 p :: pat) (c :: s)
  = if p c then S <$> Re.greedy p (Re.match_here pat) s else None.
Proof. done. Qed.

(** The substitution, one step at a time. *)
Lemma sub_nil (pat : Re.pattern) (repl : str) :
  Re.match_here pat [] = None -> Re.sub pat repl [] = [].
Proof. unfold Re.sub. simpl. by intros ->. Qed.

Lemma sub_copy (pat : Re.pattern) (repl : str) (c : char) (s : str) :
  Re.match_here pat (c :: s) = None ->
  Re.sub pat repl (c :: s) = c :: Re.sub pat repl s.
Proof. unfold Re.sub. cbn [Re.sub_from]. by intros ->. Qed.

Lemma sub_replace (pat : Re.pattern) (repl : str) (c : char) (s : str) (n : nat) :
  Re.match_here pat (c :: s) = Some (S n) ->
  Re.sub pat repl (c :: s) = repl ++ Re.sub pat repl (drop n s).
Proof.
  intros H. unfold Re.sub at 1. cbn [Re.sub_from]. rewrite H.
  f_equal. apply sub_from_skip. apply match_here_bound in H. simpl in H. lia.
Qed.

(** A pattern that matches nowhere leaves the text as it is. *)
Lemma sub_no_match (pat : Re.pattern) (repl : str) (s : str) :
  Re.search pat s = false -> Re.sub pat repl s = s.
Proof.
  induction s as [|c s IH]; simpl.
  - destruct (Re.match_here pat []) eqn:E; [done|]. intros _. by apply sub_nil.
  - destruct (Re.match_here pat (c :: s)) eqn:E; [done|].
    intros H. rewrite sub_copy by done. by rewrite IH.
Qed.

(** ** The three patterns of [clean_response] *)

Lemma clean_response_stages (s : str) :
  clean_response s = strip (collapse_spaces (tidy_periods (remove_citations s))).
Proof. reflexivity. Qed.

Lemma exactly_true (x c : char) : Re.exactly x c = true <-> c = x.
Proof. unfold Re.exactly. rewrite N.eqb_eq. split; congruence. Qed.

Lemma exactly_false (x c : char) : Re.exactly x c = false <-> c <> x.
Proof. unfold Re.exactly. rewrite N.eqb_neq. split; congruence. Qed.

Lemma match_spaces (c : char) (s : str) :
  Re.match_here spaces_pattern (c :: s)
  = if isspace c then Some (S (span isspace s)) else None.
Proof.
  unfold spaces_pattern. rewrite match_here_many1. destruct (isspace c); [|done].
  rewrite (greedy_longest _ _ _ 0%nat) by done. simpl. f_equal. lia.
Qed.

Lemma collapse_spaces_nil : collapse_spaces [] = [].
Proof. done. Qed.

Lemma collapse_spaces_other (c : char) (s : str) :
  isspace c = false -> collapse_spaces (c :: s) = c :: collapse_spaces s.
Proof.
  intros H. unfold collapse_spaces. apply sub_copy. by rewrite match_spaces, H.
Qed.

Lemma collapse_spaces_space (c : char) (s : str) :
  isspace c = true ->
  collapse_spaces (c :: s) = 0x20 :: collapse_spaces (drop_while isspace s).
Proof.
  intros H. unfold collapse_spaces.
  rewrite (sub_replace _ _ _ _ (span isspace s)) by (by rewrite match_spaces, H).
  by rewrite drop_span.
Qed.

Lemma match_space_period (c : char) (s : str) :
  Re.match_here space_period_pattern (c :: s)
  = if isspace c then
      match drop_while isspace s with
      | d :: _ => if Re.exactly 0x2E d then Some (S (span isspace s + 1)) else None
      | [] => None
      end
    else None.
Proof.
  change space_period_pattern with [Re.Many1 isspace; Re.One (Re.exactly 0x2E)].
  rewrite match_here_many1. destruct (isspace c); [|done].
  set (k := Re.match_here [Re.One (Re.exactly 0x2E)]).
  assert (Hk : forall t, k t = match t with
                               | d :: _ => if Re.exactly 0x2E d then Some 1%nat else None
                               | [] => None
                               end).
  { intros [|d t]; [done|]. subst k. rewrite match_here_one.
    by destruct (Re.exactly 0x2E d). }
  destruct (k (drop_while isspace s)) as [m|] eqn:E.
  - rewrite (greedy_longest _ _ _ _ E). rewrite Hk in E.
    destruct (drop_while isspace s) as [|d r]; [done|].
    destruct (Re.exactly 0x2E d); [|done]. by injection E as <-.
  - rewrite greedy_no_retry; [| |done].
    + rewrite Hk in E. destruct (drop_while isspace s) as [|d r]; [done|].
      by destruct (Re.exactly 0x2E d).
    + intros d t Hd. rewrite Hk.
      destruct (Re.exactly 0x2E d) eqn:Ed; [|done].
      apply exactly_true in Ed. subst d. done.
Qed.

Lemma tidy_periods_nil : tidy_periods [] = [].
Proof. done. Qed.

Lemma tidy_periods_other (c : char) (s : str) :
  isspace c = false -> tidy_periods (c :: s) = c :: tidy_periods s.
Proof.
  intros H. unfold tidy_periods. apply sub_copy.
  by rewrite match_space_period, H.
Qed.

Lemma tidy_periods_join (c : char) (s r : str) :
  isspace c = true -> drop_while isspace s = 0x2E :: r ->
  tidy_periods (c :: s) = 0x2E :: tidy_periods r.
Proof.
  intros H Hr. unfold tidy_periods.
  rewrite (sub_replace _ _ _ _ (span isspace s + 1)).
  - rewrite <- drop_drop, drop_span, Hr. done.
  - by rewrite match_space_period, H, Hr.
Qed.

Lemma tidy_periods_keep (c : char) (s : str) :
  isspace c = true -> starts_outside (Re.exactly 0x2E) (drop_while isspace s) ->
  tidy_periods (c :: s) = c :: tidy_periods s.
Proof.
  intros H Hr. unfold tidy_periods. apply sub_copy.
  rewrite match_space_period, H.
  destruct (drop_while isspace s) as [|d r]; [done|]. simpl in Hr. by rewrite Hr.
Qed.

(** ** Induction on the length of a text *)

Lemma str_length_ind (P : str -> Prop) :
  (forall s, (forall t, (length t < length s)%nat -> P t) -> P s) ->
  forall s, P s.
Proof.
  intros step s. remember (length s) as n eqn:E. revert s E.
  induction n as [n IHn] using lt_wf_ind. intros s ->.
  apply step. intros t Ht. by apply (IHn (length t)).
Qed.

Lemma starts_outside_app_l (p : char -> bool) (a b : str) :
  starts_outside p (a ++ b) -> starts_outside p a.
Proof. by destruct a. Qed.

(** ** Stripping *)

Lemma lstrip_suffix (s : str) : exists w, s = w ++ lstrip s.
Proof. apply drop_while_suffix. Qed.

Lemma reverse_rstrip (s : str) :
  reverse (rstrip s) = drop_while isspace (reverse s).
Proof. unfold rstrip. apply reverse_involutive. Qed.

Lemma rstrip_prefix (s : str) : exists w, s = rstrip s ++ w.
Proof.
  destruct (drop_while_suffix isspace (reverse s)) as [k Hk].
  exists (reverse k). unfold rstrip.
  rewrite <- reverse_app, <- Hk. by rewrite reverse_involutive.
Qed.

Lemma strip_infix (s : str) : exists w1 w2, s = w1 ++ strip s ++ w2.
Proof.
  destruct (lstrip_suffix s) as [w1 H1].
  destruct (rstrip_prefix (lstrip s)) as [w2 H2].
  exists w1, w2. unfold strip. by rewrite <- H2.
Qed.

Lemma strip_starts (s : str) : starts_outside isspace (strip s).
Proof.
  destruct (rstrip_prefix (lstrip s)) as [w Hw].
  apply (starts_outside_app_l _ _ w). fold (strip s) in Hw. rewrite <- Hw.
  apply drop_while_starts.
Qed.

Lemma strip_ends (s : str) : starts_outside isspace (reverse (strip s)).
Proof. unfold strip. rewrite reverse_rstrip. apply drop_while_starts. Qed.

Lemma lstrip_id (s : str) : starts_outside isspace s -> lstrip s = s.
Proof. apply drop_while_id. Qed.

Lemma rstrip_id (s : str) : starts_outside isspace (reverse s) -> rstrip s = s.
Proof.
  intros H. unfold rstrip. rewrite drop_while_id by done.
  apply reverse_involutive.
Qed.

Lemma strip_id (s : str) :
  starts_outside isspace s -> starts_outside isspace (reverse s) -> strip s = s.
Proof. intros H1 H2. unfold strip. rewrite lstrip_id by done. by apply rstrip_id. Qed.

(** ** Single spacing *)

Lemma single_spaced_app_r (a b : str) : single_spaced (a ++ b) -> single_spaced b.
Proof. induction a as [|c a IH]; simpl; [done|]. intros [_ H]. by apply IH. Qed.

Lemma single_spaced_app_l (a b : str) : single_spaced (a ++ b) -> single_spaced a.
Proof.
  induction a as [|c a IH]; simpl; [done|]. intros [H1 H2]. split; [|by apply IH].
  intros Hc. destruct (H1 Hc) as [-> H]. split; [done|].
  by apply starts_outside_app_l in H.
Qed.

Lemma collapse_spaces_starts (s : str) :
  starts_outside isspace s -> starts_outside isspace (collapse_spaces s).
Proof.
  destruct s as [|c s]; simpl; [done|]. intros H.
  by rewrite collapse_spaces_other.
Qed.

Lemma collapse_spaces_single_spaced (s : str) : single_spaced (collapse_spaces s).
Proof.
  induction s as [s IH] using str_length_ind.
  destruct s as [|c s]; [done|]. destruct (isspace c) eqn:E.
  - rewrite collapse_spaces_space by done. simpl. split.
    + intros _. split; [done|]. apply collapse_spaces_starts, drop_while_starts.
    + apply IH. simpl. pose proof (drop_while_length isspace s). lia.
  - rewrite collapse_spaces_other by done. simpl. split.
    + congruence.
    + apply IH. simpl. lia.
Qed.

Lemma collapse_spaces_id (t : str) : single_spaced t -> collapse_spaces t = t.
Proof.
  induction t as [|c t IH]; simpl; [done|]. intros [H1 H2].
  destruct (isspace c) eqn:E.
  - destruct (H1 eq_refl) as [-> H]. rewrite collapse_spaces_space by done.
    rewrite drop_while_id by done. by rewrite IH.
  - rewrite collapse_spaces_other by done. by rewrite IH.
Qed.

(** ** Periods *)

Lemma period_tidy_app_r (a b : str) : period_tidy (a ++ b) -> period_tidy b.
Proof. induction a as [|c a IH]; simpl; [done|]. intros [_ H]. by apply IH. Qed.

Lemma period_tidy_app_l (a b : str) : period_tidy (a ++ b) -> period_tidy a.
Proof.
  induction a as [|c a IH]; simpl; [done|]. intros [H1 H2]. split; [|by apply IH].
  intros Hc. by apply (starts_outside_app_l _ _ b), H1.
Qed.

(** After a whitespace character of a tidy text, the run of whitespace it
    starts is not followed by a period either. *)
Lemma period_tidy_run (c : char) (s : str) :
  isspace c = true -> period_tidy (c :: s) ->
  starts_outside (Re.exactly 0x2E) (drop_while isspace s).
Proof.
  revert c. induction s as [|d s IH]; intros c Hc [H1 H2]; simpl; [done|].
  destruct (isspace d) eqn:Ed.
  - by apply (IH d).
  - by apply H1.
Qed.

Lemma tidy_periods_starts (s : str) :
  starts_outside (Re.exactly 0x2E) (drop_while isspace s) ->
  starts_outside (Re.exactly 0x2E) (tidy_periods s).
Proof.
  destruct s as [|c s]; [done|]. simpl. destruct (isspace c) eqn:E.
  - intros H. rewrite tidy_periods_keep by done. simpl.
    apply exactly_false. intros ->. done.
  - intros H. by rewrite tidy_periods_other.
Qed.

Lemma tidy_periods_period_tidy (s : str) : period_tidy (tidy_periods s).
Proof.
  induction s as [s IH] using str_length_ind.
  destruct s as [|c s]; [done|]. destruct (isspace c) eqn:E.
  - destruct (drop_while isspace s) as [|d r] eqn:Er.
    + rewrite tidy_periods_keep by (by rewrite ?Er). simpl. split.
      * intros _. apply tidy_periods_starts. by rewrite Er.
      * apply IH. simpl. lia.
    + destruct (Re.exactly 0x2E d) eqn:Ed.
      * apply exactly_true in Ed. subst d.
        rewrite (tidy_periods_join c s r) by done. simpl. split; [done|].
        apply IH. simpl. pose proof (drop_while_length isspace s) as Hl.
        rewrite Er in Hl. simpl in Hl. lia.
      * rewrite tidy_periods_keep by (by rewrite ?Er). simpl. split.
        -- intros _. apply tidy_periods_starts. by rewrite Er.
        -- apply IH. simpl. lia.
  - rewrite tidy_periods_other by done. simpl. split; [congruence|].
    apply IH. simpl. lia.
Qed.

Lemma tidy_periods_id (t : str) : period_tidy t -> tidy_periods t = t.
Proof.
  induction t as [|c t IH]; [done|]. intros H. pose proof H as [H1 H2].
  destruct (isspace c) eqn:E.
  - rewrite tidy_periods_keep by eauto using period_tidy_run. by rewrite IH.
  - rewrite tidy_periods_other by done. by rewrite IH.
Qed.

Lemma collapse_spaces_period_tidy (t : str) :
  period_tidy t -> period_tidy (collapse_spaces t).
Proof.
  induction t as [t IH] using str_length_ind.
  destruct t as [|c t]; [done|]. intros H. pose proof H as [H1 H2].
  destruct (isspace c) eqn:E.
  - rewrite collapse_spaces_space by done. simpl. split.
    + intros _. pose proof (period_tidy_run c t E H) as Hr.
      pose proof (drop_while_starts isspace t) as Hs.
      destruct (drop_while isspace t) as [|d r]; [done|]. simpl in *.
      by rewrite collapse_spaces_other.
    + apply IH.
      * simpl. pose proof (drop_while_length isspace t). lia.
      * destruct (drop_while_suffix isspace t) as [k Hk].
        rewrite Hk in H2. by apply period_tidy_app_r in H2.
  - rewrite collapse_spaces_other by done. simpl. split; [congruence|].
    apply IH; [simpl; lia|done].
Qed.

(** ** Citation markers *)

Lemma take_span_Forall (p : char -> bool) (s : str) :
  Forall (fun c => p c = true) (take (span p s) s).
Proof.
  induction s as [|c s IH]; simpl; [constructor|].
  destruct (p c) eqn:E; simpl; [|constructor]. by constructor.
Qed.

Lemma drop_while_app (p : char -> bool) (ds rest : str) :
  Forall (fun c => p c = true) ds -> starts_outside p rest ->
  drop_while p (ds ++ rest) = rest /\ span p (ds ++ rest) = length ds.
Proof.
  intros Hds Hrest. induction Hds as [|d ds Hd _ IH]; simpl.
  - split; [by apply drop_while_id|]. destruct rest as [|c rest]; [done|].
    simpl in *. by rewrite Hrest.
  - rewrite Hd. destruct IH as [-> ->]. done.
Qed.

Lemma citation_pattern_atoms : citation_pattern = citation_atoms.
Proof. reflexivity. Qed.

Lemma match_closing_bracket (t : str) :
  Re.match_here [Re.One (Re.exactly 0x5D)] t
  = match t with
    | d :: _ => if Re.exactly 0x5D d then Some 1%nat else None
    | [] => None
    end.
Proof.
  destruct t as [|d t]; [done|]. rewrite match_here_one.
  by destruct (Re.exactly 0x5D d).
Qed.

Lemma match_citation_complete (m rest : str) :
  citation m -> Re.match_here citation_pattern (m ++ rest) = Some (length m).
Proof.
  intros (ds & Hne & Hds & ->). rewrite citation_pattern_atoms.
  destruct ds as [|d ds]; [done|]. apply Forall_cons in Hds as [Hd Hds].
  change (lit "[doc") with [0x5B; 0x64; 0x6F; 0x63].
  change (lit "]") with [0x5D]. unfold citation_atoms.
  cbn [app]. rewrite !match_here_one.
  change (Re.exactly 91 91) with true. change (Re.exactly 100 100) with true.
  change (Re.exactly 111 111) with true. change (Re.exactly 99 99) with true.
  cbv iota. rewrite match_here_many1, Hd.
  destruct (drop_while_app isdecimal ds (0x5D :: rest) Hds eq_refl) as [Hdrop Hspan].
  rewrite <- app_assoc. cbn [app].
  rewrite (greedy_longest _ _ _ 1%nat).
  - unfold str, char in *. rewrite Hspan. cbn. rewrite !length_app. done.
  - unfold str, char in *. rewrite Hdrop. done.
Qed.

Lemma match_citation_sound (s : str) (n : nat) :
  Re.match_here citation_pattern s = Some n ->
  exists m rest, citation m /\ s = m ++ rest /\ n = length m.
Proof.
  rewrite citation_pattern_atoms. unfold citation_atoms.
  destruct s as [|c0 [|c1 [|c2 [|c3 [|d s]]]]];
    rewrite ?match_here_one;
    repeat match goal with
      | |- context [if Re.exactly ?x ?c then _ else _] =>
          let E := fresh "E" in
          destruct (Re.exactly x c) eqn:E; [apply exactly_true in E; subst c|done]
      | |- context [Re.match_here _ []] => done
      | _ => rewrite match_here_one
      end; try done.
  rewrite match_here_many1. destruct (isdecimal d) eqn:Hd; [|done].
  set (k := Re.match_here [Re.One (Re.exactly 0x5D)]).
  destruct (k (drop_while isdecimal s)) as [j|] eqn:E.
  - rewrite (greedy_longest _ _ _ _ E). subst k. rewrite match_closing_bracket in E.
    destruct (drop_while isdecimal s) as [|b rest] eqn:Er; [done|].
    destruct (Re.exactly 0x5D b) eqn:Eb; [|done]. apply exactly_true in Eb. subst b.
    injection E as <-. cbn. intros [= <-].
    exists (lit "[doc" ++ (d :: take (span isdecimal s) s) ++ lit "]"), rest.
    split; [|split].
    + exists (d :: take (span isdecimal s) s). split; [done|]. split; [|done].
      constructor; [done|]. apply take_span_Forall.
    + change (lit "[doc") with [0x5B; 0x64; 0x6F; 0x63].
      change (lit "]") with [0x5D]. cbn [app]. do 5 f_equal.
      rewrite <- app_assoc. cbn [app]. rewrite <- Er, <- drop_span.
      by rewrite take_drop.
    + rewrite !length_app. cbn [length]. rewrite length_take.
      pose proof (span_le isdecimal s). change (length (lit "[doc")) with 4%nat.
      change (length (lit "]")) with 1%nat. lia.
  - rewrite greedy_no_retry; [done| |done].
    intros b t Hb. subst k. rewrite match_closing_bracket.
    destruct (Re.exactly 0x5D b) eqn:Eb; [|done].
    apply exactly_true in Eb. subst b. done.
Qed.

Lemma search_true (pat : Re.pattern) (s : str) :
  Re.search pat s = true <->
  exists pre rest n, s = pre ++ rest /\ Re.match_here pat rest = Some n.
Proof.
  split.
  - induction s as [|c s IH]; simpl.
    + destruct (Re.match_here pat []) as [n|] eqn:E; [|done].
      intros _. by exists [], [], n.
    + destruct (Re.match_here pat (c :: s)) as [n|] eqn:E.
      * intros _. by exists [], (c :: s), n.
      * intros H. destruct (IH H) as (pre & rest & n & -> & Hn).
        by exists (c :: pre), rest, n.
  - intros (pre & rest & n & -> & Hn). induction pre as [|c pre IH]; simpl.
    + destruct rest; simpl; by rewrite Hn.
    + destruct (Re.match_here pat (c :: pre ++ rest)); [done|]. apply IH.
Qed.

Lemma search_citation (s : str) :
  Re.search citation_pattern s = true <-> has_citation s.
Proof.
  rewrite search_true. split.
  - intros (pre & rest & n & -> & Hn).
    apply match_citation_sound in Hn as (m & post & Hm & -> & _).
    by exists pre, m, post.
  - intros (pre & m & post & Hm & ->).
    exists pre, (m ++ post), (length m). split; [done|].
    by apply match_citation_complete.
Qed.

Lemma remove_citations_id (t : str) : ~ has_citation t -> remove_citations t = t.
Proof.
  intros H. apply sub_no_match. destruct (Re.search citation_pattern t) eqn:E; [|done].
  by apply search_citation in E.
Qed.

(** ** The later stages neither create nor destroy a marker *)

Lemma space_not_decimal (c : char) : isspace c = true -> isdecimal c = false.
Proof.
  unfold isspace, isdecimal, decimal_ranges. intros H.
  repeat (apply orb_true_iff in H as [H|H]);
    rewrite ?andb_true_iff, ?N.leb_le, ?N.eqb_eq in H;
    cbn [existsb fst snd];
    repeat (apply orb_false_iff; split); try done;
    apply andb_false_iff; rewrite N.leb_gt, N.ltb_ge; lia.
Qed.

Lemma decimal_solid (c : char) : isdecimal c = true -> solid c.
Proof.
  intros H. split.
  - destruct (isspace c) eqn:E; [|done]. apply space_not_decimal in E. congruence.
  - intros ->. done.
Qed.

Lemma citation_solid (m : str) : citation m -> Forall solid m.
Proof.
  intros (ds & _ & Hds & ->). apply Forall_app. split; [|apply Forall_app; split].
  - change (lit "[doc") with [0x5B; 0x64; 0x6F; 0x63]. repeat constructor; done.
  - eapply Forall_impl; [exact Hds|]. apply decimal_solid.
  - change (lit "]") with [0x5D]. repeat constructor; done.
Qed.

Lemma citation_nonempty (m : str) : citation m -> exists c m', m = c :: m'.
Proof. intros (ds & _ & _ & ->). by eexists _, _. Qed.

Section Stage.
(** A stage that rewrites the text from left to right, and copies solid
    characters. *)
Context (f : str -> str).
Hypothesis f_nil : f [] = [].
Hypothesis f_cons : forall c s,
  exists x r, f (c :: s) = x :: f r /\ r `suffix_of` s
              /\ (solid x -> x = c /\ r = s).

Lemma stage_suffix (s pre t : str) :
  f s = pre ++ t -> exists s1 s2, s = s1 ++ s2 /\ f s2 = t.
Proof.
  revert pre. induction s as [s IH] using str_length_ind. intros pre H.
  destruct pre as [|a pre]; [by exists [], s|].
  destruct s as [|c s]; [by rewrite f_nil in H|].
  destruct (f_cons c s) as (x & r & Hf & [k Hk] & _).
  rewrite Hf in H. injection H as -> H.
  apply IH in H as (s1 & s2 & -> & H2).
  - exists (c :: k ++ s1), s2. split; [|done]. rewrite Hk. simpl.
    by rewrite <- app_assoc.
  - rewrite Hk. simpl. rewrite length_app. lia.
Qed.

Lemma stage_solid_prefix (m : str) :
  Forall solid m ->
  forall s r, f s = m ++ r -> exists r', s = m ++ r' /\ f r' = r.
Proof.
  induction 1 as [|a m Ha _ IH]; intros s r H; [by exists s|].
  destruct s as [|c s]; [by rewrite f_nil in H|].
  destruct (f_cons c s) as (x & r0 & Hf & _ & Hx).
  rewrite Hf in H. injection H as -> H.
  destruct (Hx Ha) as [-> ->].
  apply IH in H as (r' & -> & H). by exists r'.
Qed.

Lemma stage_reflects_citation (s : str) : has_citation (f s) -> has_citation s.
Proof.
  intros (pre & m & post & Hm & H).
  apply stage_suffix in H as (s1 & s2 & -> & H).
  apply stage_solid_prefix in H as (r' & -> & _); [|by apply citation_solid].
  by exists s1, m, r'.
Qed.

End Stage.

Lemma tidy_periods_stage (c : char) (s : str) :
  exists x r, tidy_periods (c :: s) = x :: tidy_periods r /\ r `suffix_of` s
              /\ (solid x -> x = c /\ r = s).
Proof.
  destruct (isspace c) eqn:E.
  - destruct (drop_while isspace s) as [|d r] eqn:Er.
    + exists c, s. rewrite tidy_periods_keep by (by rewrite ?Er). done.
    + destruct (Re.exactly 0x2E d) eqn:Ed.
      * apply exactly_true in Ed. subst d. exists 0x2E, r.
        rewrite (tidy_periods_join c s r) by done. split; [done|]. split.
        -- etrans; [|apply (drop_while_suffix isspace)]. rewrite Er.
           by exists [0x2E].
        -- intros [_ H]. done.
      * exists c, s. rewrite tidy_periods_keep by (by rewrite ?Er). done.
  - exists c, s. by rewrite tidy_periods_other.
Qed.

Lemma collapse_spaces_stage (c : char) (s : str) :
  exists x r, collapse_spaces (c :: s) = x :: collapse_spaces r /\ r `suffix_of` s
              /\ (solid x -> x = c /\ r = s).
Proof.
  destruct (isspace c) eqn:E.
  - exists 0x20, (drop_while isspace s). rewrite collapse_spaces_space by done.
    split; [done|]. split; [apply drop_while_suffix|]. intros [H _]. done.
  - exists c, s. by rewrite collapse_spaces_other.
Qed.

Lemma strip_reflects_citation (s : str) : has_citation (strip s) -> has_citation s.
Proof.
  intros (pre & m & post & Hm & H).
  destruct (strip_infix s) as (w1 & w2 & Hs). rewrite H in Hs.
  exists (w1 ++ pre), m, (post ++ w2). split; [done|].
  rewrite Hs. by rewrite <- !app_assoc.
Qed.

(** A marker in the sanitized text was already there after the first
    stage. *)
Lemma clean_response_reflects_citation (s : str) :
  has_citation (clean_response s) -> has_citation (remove_citations s).
Proof.
  rewrite clean_response_stages. intros H.
  apply strip_reflects_citation in H.
  apply (stage_reflects_citation collapse_spaces collapse_spaces_nil
           collapse_spaces_stage) in H.
  by apply (stage_reflects_citation tidy_periods tidy_periods_nil
              tidy_periods_stage) in H.
Qed.

Lemma drop_while_keeps (p : char -> bool) (a b : str) :
  starts_outside p b -> exists a', drop_while p (a ++ b) = a' ++ b.
Proof.
  intros Hb. induction a as [|c a [a' IH]]; simpl.
  - exists []. by apply drop_while_id.
  - destruct (p c); [by exists a'|]. by exists (c :: a).
Qed.

Lemma drop_while_keeps_length (p : char -> bool) (a b : str) :
  starts_outside p b ->
  exists a', drop_while p (a ++ b) = a' ++ b /\ (length a' <= length a)%nat.
Proof.
  intros Hb. induction a as [|c a (a' & IH & Hl)]; simpl.
  - exists []. split; [by apply drop_while_id|done].
  - destruct (p c); [exists a'; split; [done|lia]|]. by exists (c :: a).
Qed.

Section StageForward.
(** A stage that copies solid characters and never rewrites across the
    start of a solid character. *)
Context (f : str -> str).
Hypothesis f_solid : forall c s, solid c -> f (c :: s) = c :: f s.
Hypothesis f_carry : forall c s1 d s2, solid d ->
  exists x r1, f (c :: s1 ++ d :: s2) = x :: f (r1 ++ d :: s2)
               /\ (length r1 <= length s1)%nat.

Lemma stage_carries (s1 : str) (d : char) (s2 : str) :
  solid d -> exists pre, f (s1 ++ d :: s2) = pre ++ f (d :: s2).
Proof.
  intros Hd. induction s1 as [s1 IH] using str_length_ind.
  destruct s1 as [|c s1]; [by exists []|].
  destruct (f_carry c s1 d s2 Hd) as (x & r1 & Hf & Hl).
  destruct (IH r1) as [pre Hpre]; [simpl; lia|].
  exists (x :: pre). simpl. by rewrite Hf, Hpre.
Qed.

Lemma stage_copies (m r : str) : Forall solid m -> f (m ++ r) = m ++ f r.
Proof.
  induction 1 as [|a m Ha _ IH]; [done|]. simpl.
  by rewrite f_solid, IH.
Qed.

Lemma stage_preserves_citation (s : str) : has_citation s -> has_citation (f s).
Proof.
  intros (pre & m & post & Hm & ->).
  pose proof (citation_solid m Hm) as Hs.
  destruct (citation_nonempty m Hm) as (d & m' & ->).
  destruct (stage_carries pre d (m' ++ post)) as [pre' H].
  { by apply Forall_cons in Hs as [? _]. }
  change (d :: m' ++ post) with ((d :: m') ++ post) in H.
  rewrite (stage_copies (d :: m') post Hs) in H.
  by exists pre', (d :: m'), (f post).
Qed.

End StageForward.

Lemma solid_not_space (d : char) : solid d -> isspace d = false.
Proof. by intros [? _]. Qed.

Lemma tidy_periods_carry (c : char) (s1 : str) (d : char) (s2 : str) :
  solid d ->
  exists x r1, tidy_periods (c :: s1 ++ d :: s2) = x :: tidy_periods (r1 ++ d :: s2)
               /\ (length r1 <= length s1)%nat.
Proof.
  intros Hd. destruct (tidy_periods_stage c (s1 ++ d :: s2)) as (x & r & Hf & _ & _).
  destruct (isspace c) eqn:E.
  - destruct (drop_while_keeps_length isspace s1 (d :: s2)) as (a & Ha & Hl).
    { by apply solid_not_space. }
    destruct a as [|e a].
    + exists c, s1. split; [|done]. apply tidy_periods_keep; [done|].
      rewrite Ha. simpl. apply exactly_false. by destruct Hd.
    + destruct (Re.exactly 0x2E e) eqn:Ee.
      * apply exactly_true in Ee. subst e. exists 0x2E, a. split.
        -- by apply tidy_periods_join.
        -- simpl in Hl. lia.
      * exists c, s1. split; [|done]. apply tidy_periods_keep; [done|].
        by rewrite Ha.
  - exists c, s1. split; [|done]. by apply tidy_periods_other.
Qed.

Lemma collapse_spaces_carry (c : char) (s1 : str) (d : char) (s2 : str) :
  solid d ->
  exists x r1, collapse_spaces (c :: s1 ++ d :: s2)
               = x :: collapse_spaces (r1 ++ d :: s2)
               /\ (length r1 <= length s1)%nat.
Proof.
  intros Hd. destruct (isspace c) eqn:E.
  - destruct (drop_while_keeps_length isspace s1 (d :: s2)) as (a & Ha & Hl).
    { by apply solid_not_space. }
    exists 0x20, a. split; [|done]. rewrite collapse_spaces_space by done.
    by rewrite Ha.
  - exists c, s1. split; [|done]. by apply collapse_spaces_other.
Qed.

Lemma citation_ends (m : str) : citation m -> exists m0, m = m0 ++ [0x5D].
Proof.
  intros (ds & _ & _ & ->). exists (lit "[doc" ++ ds). by rewrite <- app_assoc.
Qed.

Lemma strip_preserves_citation (s : str) : has_citation s -> has_citation (strip s).
Proof.
  intros (pre & m & post & Hm & ->).
  destruct (citation_nonempty m Hm) as (d & m' & Hd).
  destruct (citation_ends m Hm) as (m0 & He).
  pose proof (citation_solid m Hm) as Hs.
  destruct (drop_while_keeps isspace pre (m ++ post)) as [pre' Hl].
  { rewrite Hd in Hs |- *. apply Forall_cons in Hs as [[? _] _]. done. }
  destruct (drop_while_keeps isspace (reverse post) (reverse (pre' ++ m)))
    as [post' Hr].
  { rewrite He, app_assoc, reverse_app. done. }
  exists pre', m, (reverse post'). split; [done|].
  unfold strip, rstrip, lstrip. rewrite Hl.
  rewrite app_assoc, reverse_app, Hr, reverse_app, reverse_involutive.
  by rewrite <- app_assoc.
Qed.

(** The sanitized text contains a marker exactly when the text left by
    the first stage does. *)
Lemma clean_response_citation (s : str) :
  has_citation (clean_response s) <-> has_citation (remove_citations s).
Proof.
  split; [apply clean_response_reflects_citation|].
  intros H. rewrite clean_response_stages.
  apply strip_preserves_citation.
  apply (stage_preserves_citation collapse_spaces); last first.
  - apply (stage_preserves_citation tidy_periods); [| |done].
    + intros c t [Hc _]. by apply tidy_periods_other.
    + apply tidy_periods_carry.
  - apply collapse_spaces_carry.
  - intros c t [Hc _]. by apply collapse_spaces_other.
Qed.

(** ** Every marker of the text is deleted *)

Lemma citation_shape (m : str) :
  citation m -> exists body, m = 0x5B :: body /\ Forall (fun c => c <> 0x5B) body.
Proof.
  intros (ds & _ & Hds & ->). exists (lit "doc" ++ ds ++ lit "]"). split; [done|].
  apply Forall_app. split; [|apply Forall_app; split].
  - change (lit "doc") with [0x64; 0x6F; 0x63]. repeat constructor; done.
  - eapply Forall_impl; [exact Hds|]. intros c Hc ->. done.
  - change (lit "]") with [0x5D]. repeat constructor; done.
Qed.

(** A marker that follows cannot complete a match that starts before it. *)
Lemma match_citation_extend (c : char) (t m post : str) :
  citation m ->
  Re.match_here citation_pattern (c :: t) = None ->
  Re.match_here citation_pattern ((c :: t) ++ m ++ post) = None.
Proof.
  intros Hm Hnone.
  destruct (Re.match_here citation_pattern ((c :: t) ++ m ++ post)) as [n|] eqn:E;
    [|done].
  apply match_citation_sound in E as (m1 & rest1 & Hm1 & Heq & _).
  apply app_eq_inv in Heq as [(k & Hk & _)|(k & Hk & Hrest)].
  - rewrite Hk, (match_citation_complete m1 k Hm1) in Hnone. done.
  - destruct k as [|x k].
    + rewrite app_nil_r in Hk. subst m1.
      rewrite <- (app_nil_r (c :: t)), (match_citation_complete _ [] Hm1) in Hnone.
      done.
    + destruct (citation_shape m Hm) as (body & -> & _).
      injection Hrest as <- _.
      destruct (citation_shape m1 Hm1) as (body1 & -> & Hbody1).
      injection Hk as _ ->. apply Forall_app in Hbody1 as [_ Hbody1].
      by apply Forall_cons in Hbody1 as [? _].
Qed.

(** Each marker of the text is deleted, and the text before it and the
    text after it are handled on their own. *)
Lemma remove_citations_app (pre m post : str) :
  citation m ->
  remove_citations (pre ++ m ++ post) = remove_citations pre ++ remove_citations post.
Proof.
  intros Hm. induction pre as [pre IH] using str_length_ind.
  destruct pre as [|c pre].
  - destruct (citation_nonempty m Hm) as (d & m' & ->).
    unfold remove_citations at 1. cbn [app].
    rewrite (sub_replace _ _ _ _ (length m')).
    + by rewrite drop_app_length.
    + apply (match_citation_complete (d :: m') post Hm).
  - destruct (Re.match_here citation_pattern (c :: pre)) as [n|] eqn:E.
    + pose proof E as Hn. apply match_here_bound in Hn.
      apply match_citation_sound in E as (m1 & rest1 & Hm1 & Heq & ->).
      destruct (citation_nonempty m1 Hm1) as (d & m1' & ->).
      unfold remove_citations at 1 2.
      rewrite (sub_replace _ _ c (pre ++ m ++ post) (length m1')).
      * rewrite (sub_replace _ _ c pre (length m1')).
        -- cbn [app]. rewrite drop_app_le by (simpl in Hn; lia).
           apply IH. rewrite length_drop. simpl in *. lia.
        -- rewrite Heq. apply (match_citation_complete _ rest1 Hm1).
      * change (c :: pre ++ m ++ post) with ((c :: pre) ++ m ++ post).
        rewrite Heq, <- app_assoc.
        apply (match_citation_complete _ (rest1 ++ m ++ post) Hm1).
    + unfold remove_citations at 1 2. cbn [app].
      rewrite sub_copy by (by apply (match_citation_extend c pre m post)).
      rewrite (sub_copy _ _ c pre) by done.
      cbn [app]. f_equal. apply IH. simpl. lia.
Qed.

(** ** Lengths *)

Lemma match_here_positive (a : Re.atom) (pat : Re.pattern) (t : str) :
  Re.match_here (a :: pat) t <> Some 0%nat.
Proof.
  destruct a as [p|p], t as [|c t]; simpl; try done; destruct (p c); try done.
  - by destruct (Re.match_here pat t).
  - by destruct (Re.greedy p (Re.match_here pat) t).
Qed.

Lemma sub_from_length (a : Re.atom) (pat : Re.pattern) (repl : str) :
  (length repl <= 1)%nat ->
  forall s k, (length (Re.sub_from (a :: pat) repl k s) <= length s)%nat.
Proof.
  intros Hrepl. induction s as [|c s IH]; intros k.
  - cbn [Re.sub_from]. destruct k; [|done].
    destruct (Re.match_here (a :: pat) []) as [[|n]|] eqn:E; try done.
    + by apply match_here_positive in E.
    + apply match_here_bound in E. simpl in E. lia.
  - cbn [Re.sub_from]. destruct k as [|k].
    + destruct (Re.match_here (a :: pat) (c :: s)) as [[|n]|] eqn:E.
      * by apply match_here_positive in E.
      * rewrite length_app. specialize (IH n). simpl. lia.
      * specialize (IH 0%nat). simpl. lia.
    + specialize (IH k). simpl. lia.
Qed.

Lemma sub_length (a : Re.atom) (pat : Re.pattern) (repl : str) (s : str) :
  (length repl <= 1)%nat -> (length (Re.sub (a :: pat) repl s) <= length s)%nat.
Proof. intros H. by apply sub_from_length. Qed.

(** Deleting the matches of a pattern that matches somewhere shortens the
    text. *)
Lemma sub_delete_shorter (a : Re.atom) (pat : Re.pattern) (s : str) :
  Re.search (a :: pat) s = true ->
  (length (Re.sub (a :: pat) [] s) < length s)%nat.
Proof.
  induction s as [|c s IH]; cbn [Re.search].
  - destruct (Re.match_here (a :: pat) []) as [n|] eqn:E; [|done].
    apply match_here_bound in E as Hn. simpl in Hn. assert (n = 0%nat) as -> by lia.
    by apply match_here_positive in E.
  - unfold Re.sub. cbn [Re.sub_from].
    destruct (Re.match_here (a :: pat) (c :: s)) as [[|n]|] eqn:E.
    + by apply match_here_positive in E.
    + intros _. pose proof (sub_from_length a pat [] (Nat.le_0_l 1) s n).
      simpl. lia.
    + intros H. apply IH in H. unfold Re.sub in H. simpl. lia.
Qed.

Lemma strip_length (s : str) : (length (strip s) <= length s)%nat.
Proof.
  destruct (strip_infix s) as (w1 & w2 & H). rewrite H at 2.
  rewrite !length_app. lia.
Qed.

Lemma clean_response_length (s : str) :
  (length (clean_response s) <= length (remove_citations s))%nat.
Proof.
  rewrite clean_response_stages. etrans; [apply strip_length|].
  etrans; [apply (sub_length _ [] (lit " ")); done|].
  apply (sub_length _ [Re.One (Re.exactly 0x2E)] (lit ".")). done.
Qed.

(** ** What the sanitized text looks like *)

Lemma clean_response_single_spaced (s : str) : single_spaced (clean_response s).
Proof.
  rewrite clean_response_stages.
  pose proof (collapse_spaces_single_spaced (tidy_periods (remove_citations s))) as H.
  destruct (strip_infix (collapse_spaces (tidy_periods (remove_citations s))))
    as (w1 & w2 & Hs).
  rewrite Hs in H. by apply single_spaced_app_r, single_spaced_app_l in H.
Qed.

Lemma clean_response_period_tidy (s : str) : period_tidy (clean_response s).
Proof.
  rewrite clean_response_stages.
  pose proof (collapse_spaces_period_tidy _
                (tidy_periods_period_tidy (remove_citations s))) as H.
  destruct (strip_infix (collapse_spaces (tidy_periods (remove_citations s))))
    as (w1 & w2 & Hs).
  rewrite Hs in H. by apply period_tidy_app_r, period_tidy_app_l in H.
Qed.

(** On a text without marker that is already tidy, every stage is the
    identity. *)
Lemma clean_response_id (t : str) :
  ~ has_citation t -> period_tidy t -> single_spaced t ->
  starts_outside isspace t -> starts_outside isspace (reverse t) ->
  clean_response t = t.
Proof.
  intros H1 H2 H3 H4 H5. rewrite clean_response_stages.
  rewrite remove_citations_id by done. rewrite tidy_periods_id by done.
  rewrite collapse_spaces_id by done. by apply strip_id.
Qed.

(** ** Running the handlers *)

Lemma get_chatbot_response_run (env : Env) (user_message : str) (w : World) :
  let h1 := conversation_history w ++ [user_turn env user_message w] in
  let req := completion_request env (messages_for_api h1) in
  let w1 := mkWorld h1 (S (clock_reads w)) (sent w ++ [req]) in
  get_chatbot_response env user_message w
  = match reply_to env user_message w with
    | Raise e => (Raise e, w1)
    | Ok response =>
        match choices response with
        | [] => (Raise IndexError, w1)
        | None :: _ => (Raise TypeError, w1)
        | Some text :: _ =>
            (Ok (clean_response text),
             mkWorld (h1 ++ [mkTurn (lit "assistant") (clean_response text)
                               (clock env (S (clock_reads w)))])
               (S (S (clock_reads w))) (sent w ++ [req]))
        end
    end.
Proof.
  unfold get_chatbot_response, reply_to, mbind, M_bind, current_time, append,
    get_history, create, first_content. cbn -[clean_response completion_request].
  destruct (service env _ _) as [[[|[text|] rest]]|e]; reflexivity.
Qed.

Lemma chat_get (env : Env) (req : Request) (w : World) :
  method req <> lit "POST" ->
  chat env req w = (Ok (Rendered (conversation_history w)), w).
Proof. intros H. unfold chat. by rewrite decide_False. Qed.

Lemma chat_post_empty (env : Env) (req : Request) (w : World) :
  method req = lit "POST" ->
  strip (form_get req (lit "question") (lit "")) = [] ->
  chat env req w = (Ok (Redirect (lit "chat")), w).
Proof. intros H Hq. unfold chat. rewrite decide_True by done. by rewrite Hq. Qed.

Lemma chat_post_question (env : Env) (req : Request) (w : World) :
  method req = lit "POST" ->
  strip (form_get req (lit "question") (lit "")) <> [] ->
  chat env req w
  = match get_chatbot_response env
            (strip (form_get req (lit "question") (lit ""))) w with
    | (Ok _, w') => (Ok (Redirect (lit "chat")), w')
    | (Raise e, w') => (Raise e, w')
    end.
Proof.
  intros H Hq. unfold chat. rewrite decide_True by done.
  destruct (strip _) as [|c q] eqn:E; [done|].
  unfold mbind, M_bind. cbn [truthy].
  by destruct (get_chatbot_response env (c :: q) w) as [[a|e] w'].
Qed.

Lemma reset_run (env : Env) (w : World) :
  reset env w
  = (Ok (Redirect (lit "chat")),
     mkWorld [mkTurn (lit "assistant") greeting (clock env (clock_reads w))]
       (S (clock_reads w)) (sent w)).
Proof. reflexivity. Qed.

(** * The claims *)

(** C2 (as amended).  Every citation marker that occurs in the input is
    deleted, the text before it and the text after it being handled on
    their own; the later stages neither create nor destroy a marker.  So
    the output contains a marker exactly when the text left by the single
    left-to-right deletion pass contains one, which happens only when the
    deletion joins the text around a marker into a new marker. *)
Theorem clean_response_citations (s : str) :
  (forall pre m post, s = pre ++ m ++ post -> citation m ->
     remove_citations s = remove_citations pre ++ remove_citations post)
  /\ (has_citation (clean_response s) <-> has_citation (remove_citations s)).
Proof.
  split; [|apply clean_response_citation].
  intros pre m post -> Hm. by apply remove_citations_app.
Qed.

Lemma clean_response_citations_witness :
  remove_citations (lit "We offer consulting. [doc1]")
  = remove_citations (lit "We offer consulting. ") ++ remove_citations (lit "")
  /\ ~ has_citation (clean_response (lit "We offer consulting. [doc1]")).
Proof.
  destruct (clean_response_citations (lit "We offer consulting. [doc1]"))
    as [Hdel Hiff].
  split.
  - apply (Hdel (lit "We offer consulting. ") (lit "[doc1]") (lit "")).
    + vm_compute. reflexivity.
    + exists (lit "1"). split; [done|]. split; [|done].
      repeat constructor.
  - intros H. apply Hiff, search_citation in H. vm_compute in H. discriminate.
Defined.

(** C2 (as stated) fails: removing the inner marker of a nested one joins
    the text around it into a new marker, which is returned. *)
Lemma nested_citation_survives :
  clean_response (lit "[doc[doc1]1]") = lit "[doc1]"
  /\ has_citation (clean_response (lit "[doc[doc1]1]")).
Proof.
  split; [vm_compute; reflexivity|].
  apply search_citation. vm_compute. reflexivity.
Qed.

(** C6 (as amended).  Sanitizing a sanitized text changes nothing
    exactly when that text contains no citation marker: the sanitizer is
    idempotent on every input whose output is free of markers, and on no
    other. *)
Theorem clean_response_idempotent (s : str) :
  clean_response (clean_response s) = clean_response s
  <-> ~ has_citation (clean_response s).
Proof.
  split.
  - intros Heq Hc. apply search_citation in Hc.
    pose proof (clean_response_length (clean_response s)) as Hl.
    rewrite Heq in Hl. unfold remove_citations in Hl.
    change (lit "") with (@nil char) in Hl. rewrite citation_pattern_atoms in *.
    pose proof (sub_delete_shorter (Re.One (Re.exactly 0x5B)) (tail citation_atoms)
                  (clean_response s) Hc) as Hlt.
    change (Re.One (Re.exactly 0x5B) :: tail citation_atoms)
      with citation_atoms in Hlt.
    lia.
  - intros H. apply clean_response_id; [done| | | |].
    + apply clean_response_period_tidy.
    + apply clean_response_single_spaced.
    + apply strip_starts.
    + apply strip_ends.
Qed.

Lemma clean_response_idempotent_witness :
  clean_response (clean_response (lit "  A [doc12][doc3] b   .  c [doc] ."))
  = clean_response (lit "  A [doc12][doc3] b   .  c [doc] .").
Proof.
  apply (clean_response_idempotent (lit "  A [doc12][doc3] b   .  c [doc] .")).
  intros H. apply search_citation in H. vm_compute in H. discriminate.
Defined.

(** C6 (as stated) fails: the sanitized form of a nested marker is a
    marker, which a second pass deletes. *)
Lemma nested_citation_not_idempotent :
  clean_response (clean_response (lit "[doc[doc1]1]"))
  <> clean_response (lit "[doc[doc1]1]").
Proof. vm_compute. discriminate. Qed.

(** C7.  The sanitized text has no two consecutive whitespace characters,
    no whitespace immediately before a period (the final one included),
    and neither starts nor ends with whitespace. *)
Theorem clean_response_whitespace (s : str) :
  (forall pre c1 c2 post,
      clean_response s = pre ++ c1 :: c2 :: post ->
      isspace c1 = true -> isspace c2 = false)
  /\ (forall pre c post,
         clean_response s = pre ++ c :: lit "." ++ post -> isspace c = false)
  /\ (forall c t, clean_response s = c :: t -> isspace c = false)
  /\ (forall t c, clean_response s = t ++ [c] -> isspace c = false).
Proof.
  repeat split.
  - intros pre c1 c2 post H Hc1.
    pose proof (clean_response_single_spaced s) as Hs. rewrite H in Hs.
    apply single_spaced_app_r in Hs. destruct Hs as [Hs _].
    by destruct (Hs Hc1) as [_ ?].
  - intros pre c post H.
    pose proof (clean_response_period_tidy s) as Hs. rewrite H in Hs.
    apply period_tidy_app_r in Hs. destruct Hs as [Hs _].
    destruct (isspace c); [|done]. specialize (Hs eq_refl). done.
  - intros c t H. pose proof (strip_starts (collapse_spaces
      (tidy_periods (remove_citations s)))) as Hs.
    rewrite <- clean_response_stages in Hs. by rewrite H in Hs.
  - intros t c H. pose proof (strip_ends (collapse_spaces
      (tidy_periods (remove_citations s)))) as Hs.
    rewrite <- clean_response_stages, H, reverse_snoc in Hs. done.
Qed.

Lemma clean_response_whitespace_witness :
  isspace 0x62 = false /\ isspace 0x62 = false
  /\ isspace 0x41 = false /\ isspace 0x2E = false.
Proof.
  destruct (clean_response_whitespace (lit " A  [doc7] b .  "))
    as (H1 & H2 & H3 & H4).
  split; [|split; [|split]].
  - apply (H1 (lit "A") 0x20 0x62 (lit ".")); vm_compute; reflexivity.
  - apply (H2 (lit "A ") 0x62 []). vm_compute. reflexivity.
  - apply (H3 0x41 (lit " b.")). vm_compute. reflexivity.
  - apply (H4 (lit "A b") 0x2E). vm_compute. reflexivity.
Defined.

(** ** The transcript *)

Lemma exchanges_app (h1 h2 : list Turn) :
  exchanges h1 -> exchanges h2 -> exchanges (h1 ++ h2).
Proof. induction 1; simpl; [done|]. intros H2. constructor; auto. Qed.

Lemma role_user_not_assistant : lit "assistant" <> lit "user".
Proof. done. Qed.

Lemma exchanges_lookup (h : list Turn) :
  exchanges h ->
  forall i u, h !! i = Some u -> role u = lit "user" ->
    exists a, h !! S i = Some a /\ role a = lit "assistant"
              /\ forall b, h !! S (S i) = Some b -> role b = lit "user".
Proof.
  induction 1 as [|u0 a0 h Hu Ha Hh IH]; intros i u; [done|].
  destruct i as [|[|i]]; simpl.
  - intros [= <-] _. exists a0. split; [done|]. split; [done|].
    intros b Hb. destruct Hh; [done|]. by injection Hb as <-.
  - intros [= <-] Hr. rewrite Ha in Hr. by apply role_user_not_assistant in Hr.
  - apply IH.
Qed.

Lemma well_formed_init (env : Env) : well_formed (conversation_history (init env)).
Proof. exists (clock env 0), []. split; [done|constructor]. Qed.

Lemma well_formed_step (env : Env) (w w' : World) :
  step env w w' ->
  well_formed (conversation_history w) -> well_formed (conversation_history w').
Proof.
  intros [req reply w1 w2 H|reply w1 w2 H] Hw.
  - destruct (decide (method req = lit "POST")) as [Hm|Hm].
    + destruct (decide (strip (form_get req (lit "question") (lit "")) = []))
        as [Hq|Hq].
      * rewrite chat_post_empty in H by done. by injection H as _ <-.
      * rewrite chat_post_question, get_chatbot_response_run in H by done.
        destruct (reply_to env _ w1) as [[[|[text|] rest]]|e]; try done.
        injection H as _ <-. cbn [conversation_history].
        destruct Hw as (ts & h & -> & Hh). eexists ts, _.
        split; [simpl; reflexivity|]. rewrite <- app_assoc.
        apply exchanges_app; [done|]. constructor; [done|done|constructor].
    + rewrite chat_get in H by done. by injection H as _ <-.
  - rewrite reset_run in H. injection H as _ <-.
    exists (clock env (clock_reads w1)), []. split; [done|constructor].
Qed.

Lemma well_formed_reachable (env : Env) (w : World) :
  reachable env w -> well_formed (conversation_history w).
Proof.
  unfold reachable. revert w. apply rtc_ind_r.
  - apply well_formed_init.
  - intros w2 w3 _ Hstep IH. by apply (well_formed_step env w2).
Qed.

Lemma chat_prefix (env : Env) (req : Request) (reply : Reply) (w w' : World) :
  chat env req w = (Ok reply, w') ->
  conversation_history w `prefix_of` conversation_history w'.
Proof.
  intros H. destruct (decide (method req = lit "POST")) as [Hm|Hm].
  - destruct (decide (strip (form_get req (lit "question") (lit "")) = []))
      as [Hq|Hq].
    + rewrite chat_post_empty in H by done. by injection H as _ <-.
    + rewrite chat_post_question, get_chatbot_response_run in H by done.
      destruct (reply_to env _ w) as [[[|[text|] rest]]|e]; try done.
      injection H as _ <-. cbn [conversation_history].
      rewrite <- app_assoc. by apply prefix_app_r.
  - rewrite chat_get in H by done. by injection H as _ <-.
Qed.

(** C1.  When the completion service answers a submission with a first
    candidate [r], the turn executor returns the sanitized [r], and the
    transcript is the prior transcript followed by exactly two turns: the
    user turn with the submitted text, then the assistant turn with the
    sanitized [r].  Every prior turn keeps its position.  (This holds for
    every text handed to the executor; the route hands it non-empty
    texts only.) *)
Theorem get_chatbot_response_appends
  (env : Env) (user_message r : str) (others : list (option str)) (w : World) :
  reply_to env user_message w = Ok (mkResponse (Some r :: others)) ->
  exists ts1 ts2,
    fst (get_chatbot_response env user_message w) = Ok (clean_response r)
    /\ conversation_history (snd (get_chatbot_response env user_message w))
       = conversation_history w
         ++ [ mkTurn (lit "user") user_message ts1;
              mkTurn (lit "assistant") (clean_response r) ts2 ]
    /\ length (conversation_history (snd (get_chatbot_response env user_message w)))
       = (length (conversation_history w) + 2)%nat
    /\ forall i t, conversation_history w !! i = Some t ->
         conversation_history (snd (get_chatbot_response env user_message w)) !! i
         = Some t.
Proof.
  intros H. rewrite get_chatbot_response_run, H. cbn [choices fst snd conversation_history].
  exists (clock env (clock_reads w)), (clock env (S (clock_reads w))).
  rewrite <- app_assoc. cbn [app]. repeat split.
  - rewrite length_app. done.
  - intros i t Hi. by apply lookup_app_l_Some.
Qed.

Lemma get_chatbot_response_appends_witness :
  fst (get_chatbot_response (stub_env consulting)
         (lit "What services do you offer?") (init (stub_env consulting)))
  = Ok (lit "We offer consulting.").
Proof.
  destruct (get_chatbot_response_appends (stub_env consulting)
              (lit "What services do you offer?")
              (lit "We offer consulting. [doc1]") []
              (init (stub_env consulting)) eq_refl)
    as (ts1 & ts2 & H & _).
  exact H.
Defined.

(** C3.  In every state reached from start-up by answered requests, the
    transcript starts with the seeded assistant greeting, and every user
    turn is immediately followed by an assistant turn, after which comes a
    user turn or nothing.  An answered request to the chat route keeps the
    prior transcript as a prefix: turns are never reordered or removed,
    except by a reset. *)
Theorem reachable_transcript (env : Env) (w : World) :
  reachable env w ->
  (exists ts rest,
      conversation_history w = mkTurn (lit "assistant") greeting ts :: rest)
  /\ (forall i u, conversation_history w !! i = Some u -> role u = lit "user" ->
        exists a, conversation_history w !! S i = Some a
                  /\ role a = lit "assistant"
                  /\ forall b, conversation_history w !! S (S i) = Some b ->
                               role b = lit "user")
  /\ (forall req reply w', chat env req w = (Ok reply, w') ->
        conversation_history w `prefix_of` conversation_history w').
Proof.
  intros H. apply well_formed_reachable in H as (ts & rest & Hh & Hex).
  split; [by exists ts, rest|]. split.
  - rewrite Hh. intros [|i] u; simpl.
    + intros [= <-] Hr. by apply role_user_not_assistant in Hr.
    + by apply exchanges_lookup.
  - intros req reply w'. apply chat_prefix.
Qed.

Lemma reachable_transcript_witness :
  exists ts rest,
    conversation_history
      (snd (chat (stub_env consulting) (post (lit "What services do you offer?"))
              (init (stub_env consulting))))
    = mkTurn (lit "assistant") greeting ts :: rest.
Proof.
  apply (reachable_transcript (stub_env consulting)).
  eapply rtc_l; [|apply rtc_refl].
  eapply (step_chat _ (post (lit "What services do you offer?"))
            (Redirect (lit "chat"))).
  vm_compute. reflexivity.
Defined.

(** C4.  A POST whose question is empty after trimming (absent, empty or
    only whitespace) redirects and leaves the whole state as it was: the
    transcript is unchanged and no request is sent to the service. *)
Theorem chat_empty_question_noop (env : Env) (req : Request) (w : World) :
  method req = lit "POST" ->
  strip (form_get req (lit "question") (lit "")) = [] ->
  chat env req w = (Ok (Redirect (lit "chat")), w)
  /\ conversation_history (snd (chat env req w)) = conversation_history w
  /\ sent (snd (chat env req w)) = sent w.
Proof. intros Hm Hq. by rewrite chat_post_empty. Qed.

Lemma chat_empty_question_noop_witness :
  chat (stub_env consulting) (post (lit "   ")) (init (stub_env consulting))
  = (Ok (Redirect (lit "chat")), init (stub_env consulting)).
Proof.
  apply (chat_empty_question_noop (stub_env consulting) (post (lit "   "))).
  - reflexivity.
  - vm_compute. reflexivity.
Defined.

(** C5.  After a reset, whatever the transcript was, it consists of one
    turn: the assistant greeting with the fixed text, stamped with the
    clock reading taken by the reset. *)
Theorem reset_transcript (env : Env) (w : World) :
  fst (reset env w) = Ok (Redirect (lit "chat"))
  /\ conversation_history (snd (reset env w))
     = [ mkTurn (lit "assistant") (lit "Hello! How can I assist you today?")
           (clock env (clock_reads w)) ]
  /\ length (conversation_history (snd (reset env w))) = 1%nat.
Proof. by rewrite reset_run. Qed.

(** C8.  A submission sends exactly one request.  Its message list is the
    role and content of every turn of the transcript, in order, the user
    turn just appended included and timestamps left out; its decoding
    parameters are 800 tokens, temperature 0.7, top-p 0.95 and zero
    frequency and presence penalties; its one data source asks for simple
    query mode, the top 5 documents and strictness 3. *)
Theorem get_chatbot_response_request (env : Env) (user_message : str) (w : World) :
  exists req source,
    sent (snd (get_chatbot_response env user_message w)) = sent w ++ [req]
    /\ messages req
       = map (fun t => mkMessage (role t) (content t))
           (conversation_history w
            ++ [mkTurn (lit "user") user_message (clock env (clock_reads w))])
    /\ max_tokens req = 800%Z
    /\ temperature req = 0.7%Q
    /\ top_p req = 0.95%Q
    /\ frequency_penalty req = 0.0%Q
    /\ presence_penalty req = 0.0%Q
    /\ data_sources req = [source]
    /\ query_type (parameters source) = lit "simple"
    /\ top_n_documents (parameters source) = 5%Z
    /\ strictness (parameters source) = 3%Z.
Proof.
  rewrite get_chatbot_response_run. eexists _, _.
  destruct (reply_to env user_message w) as [[[|[text|] rest]]|e];
    cbn [snd sent]; (split; [reflexivity|]); repeat split.
Qed.

(** C9.  When the completion call raises or returns no candidate, the
    executor raises, and the user turn it appended first stays: the
    transcript is one turn longer and ends with a user turn that no
    assistant turn follows. *)
Theorem get_chatbot_response_failure (env : Env) (user_message : str) (w : World) :
  (exists e, reply_to env user_message w = Raise e)
  \/ reply_to env user_message w = Ok (mkResponse []) ->
  (exists e, fst (get_chatbot_response env user_message w) = Raise e)
  /\ conversation_history (snd (get_chatbot_response env user_message w))
     = conversation_history w
       ++ [mkTurn (lit "user") user_message (clock env (clock_reads w))]
  /\ length (conversation_history (snd (get_chatbot_response env user_message w)))
     = S (length (conversation_history w))
  /\ role <$> last (conversation_history
                      (snd (get_chatbot_response env user_message w)))
     = Some (lit "user").
Proof.
  intros H. rewrite get_chatbot_response_run.
  destruct H as [[e H]|H]; rewrite H; cbn [choices fst snd conversation_history];
    (split; [by eexists|]); (split; [done|]);
    rewrite length_app, last_snoc; (split; [simpl; lia|done]).
Qed.

Lemma get_chatbot_response_failure_witness :
  length (conversation_history
            (snd (get_chatbot_response (stub_env (Ok (mkResponse [])))
                    (lit "Hi") (init (stub_env (Ok (mkResponse [])))))))
  = 2%nat.
Proof.
  apply (get_chatbot_response_failure (stub_env (Ok (mkResponse [])))
           (lit "Hi") (init (stub_env (Ok (mkResponse []))))).
  right. reflexivity.
Defined.

(** C10.  A POST with a question that is not empty after trimming appends
    a user turn whose content is the trimmed question, whether or not the
    completion call succeeds; that content neither starts nor ends with
    whitespace. *)
Theorem chat_stores_trimmed_question (env : Env) (req : Request) (w : World) :
  method req = lit "POST" ->
  strip (form_get req (lit "question") (lit "")) <> [] ->
  (exists ts,
      conversation_history (snd (chat env req w))
        !! length (conversation_history w)
      = Some (mkTurn (lit "user")
                (strip (form_get req (lit "question") (lit ""))) ts))
  /\ (forall c t, strip (form_get req (lit "question") (lit "")) = c :: t ->
        isspace c = false)
  /\ (forall t c, strip (form_get req (lit "question") (lit "")) = t ++ [c] ->
        isspace c = false).
Proof.
  intros Hm Hq. split; [|split].
  - exists (clock env (clock_reads w)).
    rewrite chat_post_question, get_chatbot_response_run by done.
    destruct (reply_to env _ w) as [[[|[text|] rest]]|e];
      cbn [choices snd conversation_history]; rewrite <- ?app_assoc; cbn [app];
      by rewrite list_lookup_middle.
  - intros c t H. pose proof (strip_starts (form_get req (lit "question") (lit ""))) as Hs.
    by rewrite H in Hs.
  - intros t c H. pose proof (strip_ends (form_get req (lit "question") (lit ""))) as Hs.
    rewrite H, reverse_snoc in Hs. done.
Qed.

Lemma chat_stores_trimmed_question_witness :
  exists ts,
    conversation_history
      (snd (chat (stub_env consulting) (post (lit " What services do you offer? "))
              (init (stub_env consulting))))
      !! 1%nat
    = Some (mkTurn (lit "user") (lit "What services do you offer?") ts).
Proof.
  apply (chat_stores_trimmed_question (stub_env consulting)
           (post (lit " What services do you offer? "))
           (init (stub_env consulting))).
  - reflexivity.
  - vm_compute. discriminate.
Defined.

(** * Further properties of the sanitizer *)

Lemma visible_cons_space (c : char) (s : str) :
  isspace c = true -> visible (c :: s) = visible s.
Proof. intros H. unfold visible. rewrite filter_cons_False; [done|congruence]. Qed.

Lemma visible_cons_other (c : char) (s : str) :
  isspace c = false -> visible (c :: s) = c :: visible s.
Proof. intros H. unfold visible. by rewrite filter_cons_True. Qed.

Lemma visible_drop_while (s : str) : visible (drop_while isspace s) = visible s.
Proof.
  induction s as [|c s IH]; [done|]. simpl. destruct (isspace c) eqn:E; [|done].
  by rewrite visible_cons_space.
Qed.

Lemma visible_strip (s : str) : visible (strip s) = visible s.
Proof.
  unfold strip, rstrip, lstrip, visible.
  rewrite filter_reverse. fold (visible (drop_while isspace (reverse (drop_while isspace s)))).
  rewrite visible_drop_while. unfold visible. rewrite filter_reverse, reverse_involutive.
  apply visible_drop_while.
Qed.

Lemma visible_tidy_periods (s : str) : visible (tidy_periods s) = visible s.
Proof.
  induction s as [s IH] using str_length_ind.
  destruct s as [|c s]; [done|]. destruct (isspace c) eqn:E.
  - destruct (drop_while isspace s) as [|d r] eqn:Er.
    + rewrite tidy_periods_keep by (by rewrite ?Er).
      rewrite !visible_cons_space by done. apply IH. simpl. lia.
    + destruct (Re.exactly 0x2E d) eqn:Ed.
      * apply exactly_true in Ed. subst d.
        rewrite (tidy_periods_join c s r) by done.
        rewrite (visible_cons_space c s E).
        rewrite <- (visible_drop_while s), Er, !visible_cons_other by done.
        f_equal. apply IH. pose proof (drop_while_length isspace s) as Hl.
        rewrite Er in Hl. simpl in *. lia.
      * rewrite tidy_periods_keep by (by rewrite ?Er).
        rewrite !visible_cons_space by done. apply IH. simpl. lia.
  - rewrite tidy_periods_other by done. rewrite !visible_cons_other by done.
    f_equal. apply IH. simpl. lia.
Qed.

Lemma visible_collapse_spaces (s : str) : visible (collapse_spaces s) = visible s.
Proof.
  induction s as [s IH] using str_length_ind.
  destruct s as [|c s]; [done|]. destruct (isspace c) eqn:E.
  - rewrite collapse_spaces_space by done. rewrite !visible_cons_space by done.
    rewrite <- (visible_drop_while s). apply IH. simpl.
    pose proof (drop_while_length isspace s). lia.
  - rewrite collapse_spaces_other by done. rewrite !visible_cons_other by done.
    f_equal. apply IH. simpl. lia.
Qed.

Lemma visible_nil_iff (s : str) :
  visible s = [] <-> Forall (fun c => isspace c = true) s.
Proof.
  induction s as [|c s IH]; [by split|]. destruct (isspace c) eqn:E.
  - rewrite visible_cons_space, IH by done. split; [by constructor|].
    by intros [_ ?]%Forall_cons.
  - rewrite visible_cons_other by done. split; [done|].
    intros [? _]%Forall_cons. congruence.
Qed.

Lemma remove_citations_length (s : str) :
  (length (remove_citations s) <= length s)%nat.
Proof.
  unfold remove_citations. rewrite citation_pattern_atoms.
  change citation_atoms with (Re.One (Re.exactly 0x5B) :: tail citation_atoms).
  apply sub_length. change (lit "") with (@nil char). simpl. lia.
Qed.

Lemma remove_citations_shorter (s : str) :
  has_citation s -> (length (remove_citations s) < length s)%nat.
Proof.
  intros H. apply search_citation in H. unfold remove_citations.
  rewrite citation_pattern_atoms in *. change (lit "") with (@nil char).
  apply (sub_delete_shorter (Re.One (Re.exactly 0x5B)) (tail citation_atoms) s H).
Qed.

Lemma has_citation_dec (s : str) : {has_citation s} + {~ has_citation s}.
Proof.
  destruct (Re.search citation_pattern s) eqn:E.
  - left. by apply search_citation.
  - right. intros H. apply search_citation in H. congruence.
Qed.

Lemma single_spaced_whitespace (t : str) (c : char) :
  single_spaced t -> c ∈ t -> isspace c = true -> c = 0x20.
Proof.
  induction t as [|d t IH]; [by intros _ ?%elem_of_nil|].
  intros [H1 H2] [->|Hin]%elem_of_cons Hc; [|by apply IH].
  by destruct (H1 Hc).
Qed.

(** X1.  Whatever whitespace the reply contained (tabs, line breaks,
    no-break spaces), every whitespace character of the sanitized text is
    the plain space U+0020. *)
Theorem clean_response_plain_spaces (s : str) (c : char) :
  c ∈ clean_response s -> isspace c = true -> c = 0x20.
Proof. apply single_spaced_whitespace, clean_response_single_spaced. Qed.

Lemma clean_response_plain_spaces_witness : 0x20 = 0x20.
Proof.
  apply (clean_response_plain_spaces (lit "a" ++ [0x09; 0xA0; 0x0A] ++ lit "b") 0x20).
  - replace (clean_response (lit "a" ++ [0x09; 0xA0; 0x0A] ++ lit "b"))
      with [0x61; 0x20; 0x62] by (vm_compute; reflexivity).
    apply list_elem_of_further, list_elem_of_here.
  - reflexivity.
Defined.

(** X2.  The sanitizer never makes a text longer. *)
Theorem clean_response_never_longer (s : str) :
  (length (clean_response s) <= length s)%nat.
Proof.
  etrans; [apply clean_response_length|apply remove_citations_length].
Qed.

(** X3.  After the deletion of the markers, the sanitizer only touches
    whitespace: the characters other than whitespace of the output are
    those left by the deletion pass, in the same order. *)
Theorem clean_response_keeps_visible (s : str) :
  visible (clean_response s) = visible (remove_citations s).
Proof.
  rewrite clean_response_stages, visible_strip, visible_collapse_spaces.
  apply visible_tidy_periods.
Qed.

(** X4.  The sanitized text is empty exactly when the deletion of the
    markers leaves nothing but whitespace; a reply made of markers and
    whitespace only is returned as the empty text. *)
Theorem clean_response_empty (s : str) :
  clean_response s = []
  <-> Forall (fun c => isspace c = true) (remove_citations s).
Proof.
  rewrite <- visible_nil_iff, <- (visible_tidy_periods (remove_citations s)),
    <- visible_collapse_spaces, <- visible_strip, <- clean_response_stages.
  split.
  - by intros ->.
  - intros H. pose proof (strip_starts (collapse_spaces
      (tidy_periods (remove_citations s)))) as Hs.
    rewrite <- clean_response_stages in Hs.
    destruct (clean_response s) as [|c t]; [done|]. simpl in Hs.
    by rewrite visible_cons_other in H.
Qed.

Lemma clean_response_empty_witness : clean_response (lit " [doc1]  [doc22] ") = [].
Proof.
  apply (clean_response_empty (lit " [doc1]  [doc22] ")).
  vm_compute. repeat constructor.
Defined.

(** X5.  The deletion pass changes a text exactly when the text contains
    a citation marker. *)
Theorem remove_citations_changes (s : str) :
  remove_citations s = s <-> ~ has_citation s.
Proof.
  split; [|apply remove_citations_id].
  intros Heq Hc. apply remove_citations_shorter in Hc. rewrite Heq in Hc. lia.
Qed.

Lemma remove_citations_changes_witness :
  remove_citations (lit "See [1] and [doc].") = lit "See [1] and [doc].".
Proof.
  apply (remove_citations_changes (lit "See [1] and [doc].")).
  intros H. apply search_citation in H. vm_compute in H. discriminate.
Defined.

(** X6.  The texts the sanitizer leaves unchanged are exactly those that
    contain no citation marker, have no whitespace before a period, use
    single plain spaces only, and neither start nor end with
    whitespace. *)
Theorem clean_response_fixed_points (t : str) :
  clean_response t = t
  <-> (~ has_citation t /\ period_tidy t /\ single_spaced t
       /\ starts_outside isspace t /\ starts_outside isspace (reverse t)).
Proof.
  split.
  - intros H. split; [|rewrite <- H; repeat split].
    + intros Hc. apply remove_citations_shorter in Hc.
      pose proof (clean_response_length t) as Hl. rewrite H in Hl. lia.
    + apply clean_response_period_tidy.
    + apply clean_response_single_spaced.
    + rewrite clean_response_stages. apply strip_starts.
    + rewrite clean_response_stages. apply strip_ends.
  - intros (H1 & H2 & H3 & H4 & H5). by apply clean_response_id.
Qed.

Lemma clean_response_fixed_points_witness :
  clean_response (lit "We offer consulting. Ask us [today].")
  = lit "We offer consulting. Ask us [today].".
Proof.
  apply (clean_response_fixed_points (lit "We offer consulting. Ask us [today].")).
  split.
  - intros H. apply search_citation in H. vm_compute in H. discriminate.
  - vm_compute. repeat split; intros; try discriminate; try reflexivity.
Defined.

(** X7.  Sanitizing again and again comes to rest: within [length s + 1]
    applications the text is one that a further application leaves
    unchanged. *)
Theorem clean_response_settles (s : str) :
  exists n, (n <= S (length s))%nat
            /\ clean_response (Nat.iter n clean_response s)
               = Nat.iter n clean_response s.
Proof.
  assert (Hout : forall k t, (length (clean_response t) <= k)%nat ->
    exists n, (n <= k)%nat
      /\ clean_response (Nat.iter n clean_response (clean_response t))
         = Nat.iter n clean_response (clean_response t)).
  { induction k as [|k IH]; intros t Hk.
    - exists 0%nat. split; [done|]. simpl.
      destruct (clean_response t); [done|simpl in Hk; lia].
    - destruct (has_citation_dec (clean_response t)) as [Hc|Hc].
      + apply remove_citations_shorter in Hc.
        pose proof (clean_response_length (clean_response t)) as Hl.
        destruct (IH (clean_response t)) as (n & Hn & Hfix); [lia|].
        exists (S n). split; [lia|].
        rewrite !Nat.iter_succ_r. exact Hfix.
      + exists 0%nat. split; [lia|]. simpl. apply clean_response_id; [done| | | |].
        * apply clean_response_period_tidy.
        * apply clean_response_single_spaced.
        * rewrite clean_response_stages. apply strip_starts.
        * rewrite clean_response_stages. apply strip_ends. }
  destruct (Hout (length s) s) as (n & Hn & Hfix).
  { etrans; [apply clean_response_length|apply remove_citations_length]. }
  exists (S n). split; [lia|]. by rewrite !Nat.iter_succ_r.
Qed.

(** * Further properties of the handlers *)

Lemma drop_while_nil_iff (p : char -> bool) (s : str) :
  drop_while p s = [] <-> Forall (fun c => p c = true) s.
Proof.
  induction s as [|c s IH]; simpl; [by split|]. destruct (p c) eqn:E.
  - rewrite IH. split; [by constructor|]. by intros [_ ?]%Forall_cons.
  - split; [done|]. intros [? _]%Forall_cons. congruence.
Qed.

(** A text strips to nothing exactly when it is all whitespace. *)
Lemma strip_nil_iff (s : str) :
  strip s = [] <-> Forall (fun c => isspace c = true) s.
Proof.
  rewrite <- visible_nil_iff. split.
  - intros H. by rewrite <- visible_strip, H.
  - intros H. pose proof (strip_starts s) as Hs.
    rewrite <- visible_strip in H.
    destruct (strip s) as [|c t]; [done|]. simpl in Hs.
    by rewrite visible_cons_other in H.
Qed.

Lemma strip_strip (s : str) : strip (strip s) = strip s.
Proof. apply strip_id; [apply strip_starts|apply strip_ends]. Qed.

Lemma get_chatbot_response_history (env : Env) (user_message : str) (w : World) :
  exists tail,
    conversation_history (snd (get_chatbot_response env user_message w))
    = conversation_history w ++ user_turn env user_message w :: tail
    /\ (tail = []
        \/ exists r ts, tail = [mkTurn (lit "assistant") (clean_response r) ts]).
Proof.
  rewrite get_chatbot_response_run.
  destruct (reply_to env user_message w) as [[[|[text|] rest]]|e];
    cbn [choices snd conversation_history];
    try (exists []; split; [done|by left]).
  eexists [_]. split; [by rewrite <- app_assoc|]. right. by eexists _, _.
Qed.

Lemma get_chatbot_response_sent (env : Env) (user_message : str) (w : World) :
  sent (snd (get_chatbot_response env user_message w))
  = sent w ++ [completion_request env
                 (messages_for_api
                    (conversation_history w ++ [user_turn env user_message w]))].
Proof.
  rewrite get_chatbot_response_run.
  by destruct (reply_to env user_message w) as [[[|[text|] rest]]|e].
Qed.

Lemma chat_post_state (env : Env) (req : Request) (w : World) :
  method req = lit "POST" -> strip (question req) <> [] ->
  snd (chat env req w) = snd (get_chatbot_response env (strip (question req)) w).
Proof.
  intros Hm Hq. rewrite chat_post_question by done.
  by destruct (get_chatbot_response env _ w) as [[a|e] w'].
Qed.

(** The three ways a request to [/chat] can go. *)
Lemma chat_cases (env : Env) (req : Request) (w : World) :
  (method req <> lit "POST" /\ snd (chat env req w) = w)
  \/ (method req = lit "POST" /\ strip (question req) = []
      /\ snd (chat env req w) = w)
  \/ (method req = lit "POST" /\ strip (question req) <> []
      /\ snd (chat env req w)
         = snd (get_chatbot_response env (strip (question req)) w)).
Proof.
  destruct (decide (method req = lit "POST")) as [Hm|Hm].
  - destruct (decide (strip (question req) = [])) as [Hq|Hq].
    + right. left. by rewrite chat_post_empty.
    + right. right. by rewrite chat_post_state.
  - left. by rewrite chat_get.
Qed.

(** X8.  Whatever the completion service does, the executor sends exactly
    one request, keeps the prior transcript as a prefix, and appends two
    turns when it returns and one turn (the user turn) when it raises. *)
Theorem get_chatbot_response_effect (env : Env) (user_message : str) (w : World) :
  let w' := snd (get_chatbot_response env user_message w) in
  (exists req, sent w' = sent w ++ [req])
  /\ conversation_history w `prefix_of` conversation_history w'
  /\ length (conversation_history w')
     = (length (conversation_history w)
        + match fst (get_chatbot_response env user_message w) with
          | Ok _ => 2
          | Raise _ => 1
          end)%nat.
Proof.
  cbn zeta. rewrite get_chatbot_response_run.
  destruct (reply_to env user_message w) as [[[|[text|] rest]]|e];
    cbn [choices fst snd conversation_history sent];
    (split; [by eexists|]); rewrite ?length_app; cbn [length];
    (split; [|lia]); rewrite <- ?app_assoc; by apply prefix_app_r.
Qed.

(** X9.  The exception the executor raises tells what went wrong: the
    error of the completion call itself is passed on unchanged, an empty
    list of candidates gives IndexError, and a first candidate without
    content gives TypeError.  In the last case too the user turn stays and
    no assistant turn is stored. *)
Theorem get_chatbot_response_exception (env : Env) (user_message : str) (w : World) :
  (forall e, reply_to env user_message w = Raise e ->
     fst (get_chatbot_response env user_message w) = Raise e)
  /\ (reply_to env user_message w = Ok (mkResponse []) ->
      fst (get_chatbot_response env user_message w) = Raise IndexError)
  /\ (forall others,
        reply_to env user_message w = Ok (mkResponse (None :: others)) ->
        get_chatbot_response env user_message w
        = (Raise TypeError,
           mkWorld (conversation_history w ++ [user_turn env user_message w])
             (S (clock_reads w))
             (sent w ++ [completion_request env
                           (messages_for_api
                              (conversation_history w
                               ++ [user_turn env user_message w]))]))).
Proof.
  rewrite get_chatbot_response_run. split; [|split].
  - by intros e ->.
  - by intros ->.
  - by intros others ->.
Qed.

Lemma get_chatbot_response_exception_witness :
  fst (get_chatbot_response (stub_env (Ok (mkResponse [None]))) (lit "Hi")
         (init (stub_env (Ok (mkResponse [None])))))
  = Raise TypeError.
Proof.
  destruct (get_chatbot_response_exception (stub_env (Ok (mkResponse [None])))
              (lit "Hi") (init (stub_env (Ok (mkResponse [None])))))
    as (_ & _ & H).
  by rewrite (H [] eq_refl).
Defined.

(** X10.  A request to [/chat] leaves the state of the process untouched
    exactly when it is not a POST or its question is absent, empty or all
    whitespace; otherwise it sends exactly one request to the completion
    service. *)
Theorem chat_acts_iff (env : Env) (req : Request) (w : World) :
  (snd (chat env req w) = w
   <-> method req <> lit "POST"
       \/ Forall (fun c => isspace c = true) (question req))
  /\ (snd (chat env req w) <> w ->
      exists r, sent (snd (chat env req w)) = sent w ++ [r]).
Proof.
  destruct (chat_cases env req w) as [[Hm ->]|[(Hm & Hq & ->)|(Hm & Hq & ->)]].
  - split; [|done]. split; [by left|done].
  - split; [|done]. split; [|done]. intros _. right. by apply strip_nil_iff.
  - split; [|intros _; eexists; apply get_chatbot_response_sent]. split.
    + intros Heq.
      destruct (get_chatbot_response_history env (strip (question req)) w)
        as (tail & Hh & _).
      rewrite Heq in Hh. apply (f_equal length) in Hh.
      rewrite length_app in Hh. simpl in Hh. lia.
    + intros [?|Hall]; [done|]. by apply strip_nil_iff in Hall.
Qed.

Lemma chat_acts_iff_witness :
  exists r,
    sent (snd (chat (stub_env consulting) (post (lit " Hi "))
                 (init (stub_env consulting))))
    = sent (init (stub_env consulting)) ++ [r].
Proof.
  apply (chat_acts_iff (stub_env consulting) (post (lit " Hi "))).
  vm_compute. discriminate.
Defined.



Lemma chat_any_prefix (env : Env) (req : Request) (w : World) :
  conversation_history w `prefix_of` conversation_history (snd (chat env req w)).
Proof.
  destruct (chat_cases env req w) as [[Hm ->]|[(Hm & Hq & ->)|(Hm & Hq & ->)]];
    [done|done|].
  destruct (get_chatbot_response_history env (strip (question req)) w)
    as (tail & -> & _).
  by eexists.
Qed.

(** X12.  No series of requests to [/chat], answered or failed, removes,
    reorders or alters a turn: the transcript before is a prefix of the
    transcript after.  So the user turn a failed submission leaves behind
    stays in the transcript until a reset. *)
Theorem serve_chats_prefix (env : Env) (reqs : list Request) (w : World) :
  conversation_history w
    `prefix_of` conversation_history (serve_chats env reqs w).
Proof.
  revert w. induction reqs as [|req reqs IH]; intros w; [done|].
  unfold serve_chats. simpl. etrans; [apply (chat_any_prefix env req)|].
  apply IH.
Qed.

(** X13.  A reset forgets the conversation: the request of the first
    submission after a reset carries the greeting and the new question
    and nothing else, whatever the transcript held before. *)
Theorem reset_forgets (env : Env) (user_message : str) (w : World) :
  exists req,
    sent (snd (get_chatbot_response env user_message (snd (reset env w))))
    = sent w ++ [req]
    /\ messages req
       = [ mkMessage (lit "assistant") (lit "Hello! How can I assist you today?");
           mkMessage (lit "user") user_message ].
Proof.
  rewrite reset_run. cbn [snd]. rewrite get_chatbot_response_run.
  eexists. destruct (reply_to env user_message _) as [[[|[text|] rest]]|e];
    cbn [choices snd sent]; (split; [reflexivity|]); reflexivity.
Qed.

(** ** The transcript under failed requests *)

Lemma attempts_app (h1 h2 : list Turn) :
  attempts h1 -> attempts h2 -> attempts (h1 ++ h2).
Proof.
  induction 1; simpl; intros H2;
    [done|apply attempts_failed|apply attempts_answered]; auto.
Qed.

Lemma attempts_roles (h : list Turn) :
  attempts h ->
  forall t, t ∈ h -> role t = lit "user" \/ role t = lit "assistant".
Proof.
  induction 1 as [|u h Hu _ IH|u a h Hu Ha _ IH]; intros t.
  - by intros ?%elem_of_nil.
  - intros [->|Hin]%elem_of_cons; [by left|by apply IH].
  - intros [->|[->|Hin]%elem_of_cons]%elem_of_cons;
      [by left|by right|by apply IH].
Qed.

Lemma attempts_adjacent (h : list Turn) :
  attempts h ->
  (forall t, h !! 0%nat = Some t -> role t = lit "user")
  /\ (forall i a b, h !! i = Some a -> h !! S i = Some b ->
        role a = lit "assistant" -> role b = lit "user").
Proof.
  induction 1 as [|u h Hu _ [IH0 IH]|u a0 h Hu Ha _ [IH0 IH]].
  - split; [done|]. intros i a b H. done.
  - split; [by intros t [= <-]|]. intros [|i] a b; simpl.
    + intros [= <-] _ Hr. rewrite Hu in Hr.
      by apply eq_sym, role_user_not_assistant in Hr.
    + apply IH.
  - split; [by intros t [= <-]|]. intros [|[|i]] a b; simpl.
    + intros [= <-] _ Hr. rewrite Hu in Hr.
      by apply eq_sym, role_user_not_assistant in Hr.
    + intros _ Hb _. by apply IH0.
    + apply IH.
Qed.

Lemma greeting_sanitized : greeting = clean_response greeting.
Proof. vm_compute. reflexivity. Qed.

Lemma stored_stripped (t : Turn) : stored t -> strip (content t) = content t.
Proof.
  intros [(_ & _ & H)|(_ & r & ->)]; [done|].
  rewrite clean_response_stages. apply strip_strip.
Qed.

Lemma stored_greeting (ts : str) : stored (mkTurn (lit "assistant") greeting ts).
Proof. right. split; [done|]. exists greeting. apply greeting_sanitized. Qed.

(** The shape of the transcript in every state the process can be in. *)
Lemma served_shape (env : Env) (w : World) :
  served env w ->
  exists ts rest,
    conversation_history w = mkTurn (lit "assistant") greeting ts :: rest
    /\ attempts rest /\ Forall stored (conversation_history w).
Proof.
  unfold served. revert w. apply rtc_ind_r.
  - exists (clock env 0), []. split; [done|]. split; [constructor|].
    apply Forall_singleton, stored_greeting.
  - intros w w' _ Hstep (ts & rest & Hh & Hrest & Hall).
    destruct Hstep as [req w|w].
    + destruct (chat_cases env req w) as [[Hm ->]|[(Hm & Hq & ->)|(Hm & Hq & ->)]];
        [by exists ts, rest|by exists ts, rest|].
      destruct (get_chatbot_response_history env (strip (question req)) w)
        as (tail & -> & Htail).
      rewrite Hh. eexists ts, _. split; [simpl; reflexivity|].
      assert (Hu : stored (user_turn env (strip (question req)) w)).
      { left. split; [done|]. split; [done|]. apply strip_strip. }
      split.
      * apply attempts_app; [done|].
        destruct Htail as [->|(r & ts' & ->)].
        -- apply attempts_failed; [done|constructor].
        -- apply attempts_answered; [done|done|constructor].
      * rewrite <- Hh. apply Forall_app. split; [done|].
        apply Forall_cons. split; [done|].
        destruct Htail as [->|(r & ts' & ->)]; [constructor|].
        apply Forall_singleton. right. split; [done|]. by exists r.
    + rewrite reset_run. cbn [snd conversation_history].
      exists (clock env (clock_reads w)), []. split; [done|].
      split; [constructor|]. apply Forall_singleton, stored_greeting.
Qed.

(** X14.  In every state the process can be in, failed requests included,
    the transcript starts with the seeded greeting, every turn is a user
    or an assistant turn, and no two assistant turns are adjacent: an
    assistant turn is always followed by a user turn or by nothing. *)
Theorem served_roles (env : Env) (w : World) :
  served env w ->
  (exists ts rest,
      conversation_history w = mkTurn (lit "assistant") greeting ts :: rest)
  /\ (forall t, t ∈ conversation_history w ->
        role t = lit "user" \/ role t = lit "assistant")
  /\ (forall i a b, conversation_history w !! i = Some a ->
        conversation_history w !! S i = Some b ->
        role a = lit "assistant" -> role b = lit "user").
Proof.
  intros (ts & rest & Hh & Hrest & _)%served_shape.
  split; [by exists ts, rest|]. rewrite Hh. split.
  - intros t [->|Hin]%elem_of_cons; [by right|].
    by apply (attempts_roles rest).
  - destruct (attempts_adjacent rest Hrest) as [H0 Hadj].
    intros [|i] a b; simpl.
    + intros _ Hb _. by apply H0.
    + apply Hadj.
Qed.

Lemma served_roles_witness :
  exists ts rest,
    conversation_history
      (snd (chat (stub_env (Raise (ServiceError (lit "timeout"))))
              (post (lit "Hi"))
              (init (stub_env (Raise (ServiceError (lit "timeout")))))))
    = mkTurn (lit "assistant") greeting ts :: rest.
Proof.
  apply (served_roles (stub_env (Raise (ServiceError (lit "timeout"))))).
  eapply rtc_l; [|apply rtc_refl]. apply request_chat.
Defined.

(** X15.  In every state the process can be in, a user turn holds a
    non-empty question, an assistant turn holds a text that came out of
    the sanitizer, and no stored content starts or ends with
    whitespace. *)
Theorem served_contents (env : Env) (w : World) (t : Turn) :
  served env w -> t ∈ conversation_history w ->
  ((role t = lit "user" /\ content t <> [])
   \/ (role t = lit "assistant" /\ exists r, content t = clean_response r))
  /\ strip (content t) = content t.
Proof.
  intros (_ & _ & _ & _ & Hall)%served_shape Hin.
  rewrite Forall_forall in Hall. specialize (Hall t Hin).
  split; [|by apply stored_stripped].
  destruct Hall as [(Hr & Hc & _)|Ha]; [by left|by right].
Qed.

Lemma served_contents_witness :
  strip (lit "Hi") = lit "Hi".
Proof.
  apply (served_contents (stub_env consulting)
           (snd (chat (stub_env consulting) (post (lit "  Hi "))
                   (init (stub_env consulting))))
           (mkTurn (lit "user") (lit "Hi") (lit "10:05 AM"))).
  - eapply rtc_l; [|apply rtc_refl]. apply request_chat.
  - replace (conversation_history _)
      with [ mkTurn (lit "assistant") greeting (lit "10:05 AM");
             mkTurn (lit "user") (lit "Hi") (lit "10:05 AM");
             mkTurn (lit "assistant") (lit "We offer consulting.") (lit "10:05 AM") ]
      by (vm_compute; reflexivity).
    apply list_elem_of_further, list_elem_of_here.
Defined.

(** * Properties of the start-up *)

(** X16.  The two checks of the environment pass exactly when both
    AZURE_OPENAI_API_KEY and SEARCH_KEY are set to non-empty values; they
    require no other variable. *)
Theorem startup_succeeds_iff (environ : gmap str str) :
  (exists app, startup environ = Started app)
  <-> (exists openai_key search_key : str,
         getenv environ (lit "AZURE_OPENAI_API_KEY") = Some openai_key
         /\ openai_key <> []
         /\ getenv environ (lit "SEARCH_KEY") = Some search_key
         /\ search_key <> []).
Proof.
  unfold startup. split.
  - intros [app H].
    destruct (getenv environ (lit "AZURE_OPENAI_API_KEY")) as [[|c1 k1]|]; try done.
    destruct (getenv environ (lit "SEARCH_KEY")) as [[|c2 k2]|]; try done.
    by exists (c1 :: k1), (c2 :: k2).
  - intros (k1 & k2 & -> & H1 & -> & H2).
    destruct k1 as [|c1 k1]; [done|]. destruct k2 as [|c2 k2]; [done|].
    by eexists.
Qed.

(** X17.  A missing or empty AZURE_OPENAI_API_KEY is reported first,
    whatever else is set; a missing or empty SEARCH_KEY is reported when
    the first key is in order.  Each error names the variable. *)
Theorem startup_errors (environ : gmap str str) :
  (getenv environ (lit "AZURE_OPENAI_API_KEY") = None
   \/ getenv environ (lit "AZURE_OPENAI_API_KEY") = Some [] ->
   startup environ
   = EnvironmentError (lit "AZURE_OPENAI_API_KEY is required but not set."))
  /\ (forall openai_key : str,
        getenv environ (lit "AZURE_OPENAI_API_KEY") = Some openai_key ->
        openai_key <> [] ->
        getenv environ (lit "SEARCH_KEY") = None
        \/ getenv environ (lit "SEARCH_KEY") = Some [] ->
        startup environ
        = EnvironmentError (lit "SEARCH_KEY is required but not set.")).
Proof.
  unfold startup. split.
  - by intros [-> | ->].
  - intros [|c1 k1] -> Hne; [done|]. by intros [-> | ->].
Qed.

Lemma startup_errors_witness :
  startup {[ lit "AZURE_OPENAI_API_KEY" := lit "sk-1"; lit "SEARCH_KEY" := lit "" ]}
  = EnvironmentError (lit "SEARCH_KEY is required but not set.").
Proof.
  apply (proj2 (startup_errors
           {[ lit "AZURE_OPENAI_API_KEY" := lit "sk-1"; lit "SEARCH_KEY" := lit "" ]})
           (lit "sk-1")).
  - vm_compute. reflexivity.
  - discriminate.
  - right. vm_compute. reflexivity.
Defined.

(** X18.  When the checks of the start-up have passed, every request the
    executor sends names the deployment, the search endpoint and the index
    exactly as the environment gives them (absent if unset), and
    authenticates to the index by API key with the non-empty SEARCH_KEY of
    the environment. *)
Theorem startup_request (environ : gmap str str) (app : Application)
  (clock : nat -> str) (service : nat -> CompletionRequest -> Outcome Response)
  (user_message : str) (w : World) :
  startup environ = Started app ->
  exists req source,
    sent (snd (get_chatbot_response (mkEnv (app_config app) clock service)
                 user_message w))
    = sent w ++ [req]
    /\ model req = getenv environ (lit "DEPLOYMENT_NAME")
    /\ data_sources req = [source]
    /\ source_type source = lit "azure_search"
    /\ endpoint (parameters source) = getenv environ (lit "SEARCH_ENDPOINT")
    /\ index_name (parameters source) = getenv environ (lit "SEARCH_INDEX_NAME")
    /\ auth_type (authentication (parameters source)) = lit "api_key"
    /\ getenv environ (lit "SEARCH_KEY")
       = Some (key (authentication (parameters source)))
    /\ key (authentication (parameters source)) <> [].
Proof.
  intros H. unfold startup in H.
  destruct (getenv environ (lit "AZURE_OPENAI_API_KEY")) as [[|c1 k1]|]; try done.
  destruct (getenv environ (lit "SEARCH_KEY")) as [[|c2 k2]|]; try done.
  injection H as <-. rewrite get_chatbot_response_sent. eexists _, _.
  split; [reflexivity|]. cbn. repeat split; done.
Qed.

Lemma startup_request_witness :
  exists req source,
    sent (snd (get_chatbot_response
                 (mkEnv (mkConfig None None (lit "idx-key") None)
                    (fun _ => lit "10:05 AM") (fun _ _ => consulting))
                 (lit "Hi") (mkWorld [] 0 [])))
    = [req]
    /\ data_sources req = [source]
    /\ key (authentication (parameters source)) = lit "idx-key".
Proof.
  destruct (startup_request
              {[ lit "AZURE_OPENAI_API_KEY" := lit "sk-1";
                 lit "SEARCH_KEY" := lit "idx-key" ]}
              (mkApplication (mkConfig None None (lit "idx-key") None)
                 (mkClientArguments None (lit "sk-1") (lit "2025-01-01-preview"))
                 (lit "change-this-secret"))
              (fun _ => lit "10:05 AM") (fun _ _ => consulting)
              (lit "Hi") (mkWorld [] 0 []))
    as (req & source & H1 & _ & H2 & _ & _ & _ & _ & H3 & _).
  - vm_compute. reflexivity.
  - exists req, source. split; [exact H1|]. split; [exact H2|].
    assert (E : getenv {[ lit "AZURE_OPENAI_API_KEY" := lit "sk-1";
                          lit "SEARCH_KEY" := lit "idx-key" ]} (lit "SEARCH_KEY")
                = Some (lit "idx-key")) by (vm_compute; reflexivity).
    rewrite E in H3. by injection H3 as <-.
Defined.
